(** * Oscillator.h: a sine wave-table oscillator in single precision

    A shallow embedding of [DMA_DAC_Render_PingPong/Oscillator.h].  The C++
    [float] is IEEE 754 binary32; its arithmetic is taken from the standard
    library's executable specification of floating-point numbers
    ([SpecFloat], instantiated at 24 bits of precision and [emax = 128]),
    so every operation rounds to nearest, ties to even, overflows to an
    infinity and produces NaN exactly where the hardware does. *)

From Stdlib Require Import ZArith QArith Qpower Qabs Reals Qreals.
From Stdlib Require Import List Bool Lia Lra.
From Stdlib Require Lqa.
From Stdlib Require Import Floats.SpecFloat.
Import ListNotations.

Local Open Scope Z_scope.

(** ** binary32 *)

Module F32.

Definition prec : Z := 24.
Definition emax : Z := 128.

Definition float32 : Type := spec_float.

(** Well-formed binary32 values: a finite number is stored with its
    canonical mantissa and an exponent in range. *)
Definition valid (x : float32) : bool := valid_binary prec emax x.

Definition add : float32 -> float32 -> float32 := SFadd prec emax.
Definition sub : float32 -> float32 -> float32 := SFsub prec emax.
Definition mul : float32 -> float32 -> float32 := SFmul prec emax.
Definition div : float32 -> float32 -> float32 := SFdiv prec emax.

(** Comparisons; each is false as soon as an operand is NaN. *)
Definition ltb : float32 -> float32 -> bool := SFltb.
Definition leb : float32 -> float32 -> bool := SFleb.
Definition geb (x y : float32) : bool := SFleb y x.

(** Conversion of an integer ([int], [uint16_t] after promotion) to
    [float]. *)
Definition of_int (n : Z) : float32 := binary_normalize prec emax n 0 false.

(** A decimal literal [num / den] with the [f] suffix, rounded once. *)
Definition of_decimal (num den : positive) : float32 :=
  div (S754_finite false num 0) (S754_finite false den 0).

(** The integer part of a finite value, rounded toward zero. *)
Definition trunc (x : float32) : option Z :=
  match x with
  | S754_zero _ => Some 0
  | S754_finite s m e => Some (cond_Zopp s (Z.shiftl (Zpos m) e))
  | S754_infinity _ | S754_nan => None
  end.

Definition INT_MIN : Z := - 2 ^ 31.
Definition INT_MAX : Z := 2 ^ 31 - 1.

(** The cast [(int) x].  It is defined only when the truncated value fits
    the 32-bit [int] of the target; [None] stands for the undefined
    conversion of a NaN, an infinity or a value out of range. *)
Definition to_int (x : float32) : option Z :=
  match trunc x with
  | Some z => if (INT_MIN <=? z) && (z <=? INT_MAX) then Some z else None
  | None => None
  end.

Definition is_finite (x : float32) : bool :=
  match x with S754_zero _ | S754_finite _ _ _ => true | _ => false end.

(** The exact value of a finite number, as a rational and as a real;
    zero for the others. *)
Definition to_Q (x : float32) : Q :=
  match x with
  | S754_finite s m e => (inject_Z (cond_Zopp s (Zpos m)) * Qpower 2 e)%Q
  | _ => 0%Q
  end.

Definition to_R (x : float32) : R := Q2R (to_Q x).

End F32.

Abbreviation float32 := F32.float32.

(** ** The oscillator *)

(** [const uint16_t TAB_LEN = 2048;] *)
Definition TAB_LEN : Z := 2048.

(** [const float M_2PI = 6.2831853071795862319959f;] *)
Definition M_2PI : float32 :=
  F32.of_decimal 62831853071795862319959 10000000000000000000000.

(** The member [float wavetable[TAB_LEN]]: the contents of the array by
    index.  The bound [TAB_LEN] belongs to the array's type and is checked
    where the array is read. *)
Definition table : Type := Z -> float32.

Definition table_set (t : table) (i : Z) (v : float32) : table :=
  fun j => if j =? i then v else t j.

(** What an indexed read [wavetable[(int) x]] does. *)
Inductive access : Type :=
| Sample (v : float32)        (* the element read *)
| OutOfBounds (i : Z)         (* the index falls outside the array *)
| CastUndefined.              (* the cast to [int] itself is undefined *)

Definition table_read (t : table) (i : option Z) : access :=
  match i with
  | None => CastUndefined
  | Some i => if (0 <=? i) && (i <? TAB_LEN) then Sample (t i) else OutOfBounds i
  end.

(** The data members of [class Oscillator], in declaration order. *)
Record Oscillator : Type := mkOscillator {
  wavetable : table;      (* Wave table *)
  idx : float32;          (* Current wave table index *)
  idx_inc : float32;      (* Wave table index increment *)
  f0 : float32;           (* Fundamental freq. value *)
  fs : float32            (* Audio sample rate *)
}.

Definition set_wavetable (t : table) (this : Oscillator) : Oscillator :=
  mkOscillator t (idx this) (idx_inc this) (f0 this) (fs this).
Definition set_idx (v : float32) (this : Oscillator) : Oscillator :=
  mkOscillator (wavetable this) v (idx_inc this) (f0 this) (fs this).
Definition set_idx_inc (v : float32) (this : Oscillator) : Oscillator :=
  mkOscillator (wavetable this) (idx this) v (f0 this) (fs this).
Definition set_fs (v : float32) (this : Oscillator) : Oscillator :=
  mkOscillator (wavetable this) (idx this) (idx_inc this) (f0 this) v.

Section WithSine.

(** [sin] of [<math.h>], as the program sees it: applied to a [float]
    argument, its result stored into a [float].  The library is not part
    of the repository. *)
Variable sin32 : float32 -> float32.

(** The argument [M_2PI * i / TAB_LEN] of the [i]-th table entry. *)
Definition table_arg (i : Z) : float32 :=
  F32.div (F32.mul M_2PI (F32.of_int i)) (F32.of_int TAB_LEN).

(** [for (int i = 0; i < TAB_LEN; ++i) wavetable[i] = sin(...)]:
    [n] iterations are left and the counter is at [i]. *)
Fixpoint table_init_loop (n : nat) (i : Z) (t : table) : table :=
  match n with
  | O => t
  | S n' => table_init_loop n' (i + 1) (table_set t i (sin32 (table_arg i)))
  end.

Definition table_init (this : Oscillator) : Oscillator :=
  set_wavetable (table_init_loop (Z.to_nat TAB_LEN) 0 (wavetable this)) this.

(** [void setF0(float f0_Hz)] *)
Definition setF0 (f0_Hz : float32) (this : Oscillator) : Oscillator :=
  set_idx_inc (F32.div (F32.mul (F32.of_int TAB_LEN) f0_Hz) (fs this)) this.

(** [Oscillator(float sample_rate, float f0)].  [raw] is the storage the
    object is built in: the members the constructor does not assign keep
    whatever it holds. *)
Definition Oscillator_new (raw : Oscillator) (sample_rate f0_arg : float32)
  : Oscillator :=
  setF0 f0_arg (table_init (set_idx (F32.of_int 0) (set_fs sample_rate raw))).

(** The accumulator after [idx += idx_inc; if (idx >= TAB_LEN) idx = idx - TAB_LEN;] *)
Definition wrap (x : float32) : float32 :=
  if F32.geb x (F32.of_int TAB_LEN) then F32.sub x (F32.of_int TAB_LEN) else x.

Definition advance (this : Oscillator) : float32 :=
  wrap (F32.add (idx this) (idx_inc this)).

(** [float render()]: the object after the call and what the final read
    does. *)
Definition render (this : Oscillator) : Oscillator * access :=
  let this' := set_idx (advance this) this in
  (this', table_read (wavetable this') (F32.to_int (idx this'))).

End WithSine.

(** ** Sequences of calls *)

Inductive op : Type :=
| CallSetF0 (f0_Hz : float32)
| CallRender.

Definition call (o : op) (this : Oscillator) : Oscillator * list access :=
  match o with
  | CallSetF0 f => (setF0 f this, [])
  | CallRender => let (this', a) := render this in (this', [a])
  end.

(** The object after a sequence of calls, and what each [render] in it
    returned, in order. *)
Fixpoint run (ops : list op) (this : Oscillator) : Oscillator * list access :=
  match ops with
  | [] => (this, [])
  | o :: ops' =>
      let (this1, out1) := call o this in
      let (this2, out2) := run ops' this1 in
      (this2, out1 ++ out2)
  end.

(** [n] successive calls of [render]. *)
Definition renders (n : nat) : list op := repeat CallRender n.

Definition f32 (n : Z) : float32 := F32.of_int n.

(** ** Vocabulary of the statements *)

(** A well-formed value in the accumulator's range: [0 <= x < TAB_LEN]. *)
Definition in_range (x : float32) : bool :=
  F32.valid x && F32.leb (f32 0) x && F32.ltb x (f32 TAB_LEN).

(** [i] is [x] with its fractional part dropped. *)
Definition integer_part (x : float32) (i : Z) : Prop :=
  ((0 <= F32.to_Q x -> inject_Z i <= F32.to_Q x /\ F32.to_Q x < inject_Z i + 1) /\
   (F32.to_Q x <= 0 -> inject_Z i - 1 < F32.to_Q x /\ F32.to_Q x <= inject_Z i))%Q.

(** A frequency strictly between 0 and half the sample rate. *)
Definition sub_nyquist (sample_rate f0_Hz : float32) : Prop :=
  F32.valid sample_rate = true /\ F32.valid f0_Hz = true /\
  (0 < F32.to_Q f0_Hz /\ F32.to_Q f0_Hz < F32.to_Q sample_rate / 2)%Q.

(** The product [TAB_LEN * f0_Hz] of [setF0] stays finite. *)
Definition no_overflow (f0_Hz : float32) : bool :=
  F32.is_finite (F32.mul (f32 TAB_LEN) f0_Hz).

(** The calls of a sequence that set a frequency all set one that
    satisfies [P]. *)
Definition frequencies (P : float32 -> Prop) (ops : list op) : Prop :=
  Forall (fun o => match o with CallSetF0 f => P f | CallRender => True end) ops.

(** A [render] returned an element of the table, in [[-1, 1]]. *)
Definition unit_sample (a : access) : Prop :=
  exists v, a = Sample v /\
            F32.leb (f32 (-1)) v = true /\ F32.leb v (f32 1) = true.

(** The objects a program can hold: a constructed oscillator after any
    sequence of calls. *)
Definition reachable (sin32 : float32 -> float32) (this : Oscillator) : Prop :=
  exists raw sample_rate f0_arg ops,
    this = fst (run ops (Oscillator_new sin32 raw sample_rate f0_arg)).

(** The same, every frequency involved being below half the sample rate. *)
Definition reachable_sub_nyquist (sin32 : float32 -> float32)
  (this : Oscillator) : Prop :=
  exists raw sample_rate f0_arg ops,
    sub_nyquist sample_rate f0_arg /\
    frequencies (sub_nyquist sample_rate) ops /\
    this = fst (run ops (Oscillator_new sin32 raw sample_rate f0_arg)).

(** How far [sin32] is from the sine at the argument of entry [i]. *)
Definition sine_error (sin32 : float32 -> float32) (i : Z) : R :=
  Rabs (F32.to_R (sin32 (table_arg i)) - sin (F32.to_R (table_arg i))).

(** ** Concrete data for the scenarios *)

(** Storage holding nothing meaningful. *)
Definition raw0 : Oscillator :=
  mkOscillator (fun _ => S754_nan) S754_nan S754_nan S754_nan S754_nan.

(** A small sine for the scenarios: [x - x^3 / 6] in binary32. *)
Definition sin_taylor (x : float32) : float32 :=
  F32.sub x (F32.div (F32.mul (F32.mul x x) x) (f32 6)).

(** The largest binary32 value below 24000, [24000 - 2^-9]. *)
Definition below_nyquist : float32 := S754_finite false 12287999 (-9).

(** [2^127] and [2^120]. *)
Definition two_127 : float32 := S754_finite false 8388608 104.
Definition two_120 : float32 := S754_finite false 8388608 97.

(** [sin_taylor], with anything outside [[-1, 1]] replaced by zero. *)
Definition sin_clip (x : float32) : float32 :=
  let y := sin_taylor x in
  if F32.leb (f32 (-1)) y && F32.leb y (f32 1) then y else f32 0.

(** The body of [render] after [setF0 f0_Hz]: the increment reaches the
    table length, the wrapped accumulator too, and the read misses the
    table. *)
Definition wrap_fails (this : Oscillator) (f0_Hz : float32) : Prop :=
  let this1 := setF0 f0_Hz this in
  F32.geb (idx_inc this1) (f32 TAB_LEN) = true /\
  F32.geb (idx (fst (render this1))) (f32 TAB_LEN) = true /\
  exists i, TAB_LEN <= i /\ snd (render this1) = OutOfBounds i.

(** The outputs of a two-point cycle between entries [a] and [b] of the
    table of [this]. *)
Definition alternating (this : Oscillator) (a b : Z) (n : nat) : list access :=
  map (fun j => Sample (wavetable this (if Nat.even j then a else b))) (seq 0 n).

(** Rational bounds on [PI / 1024], the exact step [2 * PI / TAB_LEN]
    between table arguments, and the distance allowed to an argument. *)
Definition step_lo : Q := 3141592653 # 1024000000000.
Definition step_hi : Q := 3141592654 # 1024000000000.
Definition arg_tolerance : Q := 1 # 1000000.

(** The [i]-th argument is within [arg_tolerance] of every multiple of a
    step between the two bounds. *)
Definition table_arg_close (i : Z) : bool :=
  Qle_bool (F32.to_Q (table_arg i)) (step_lo * inject_Z i + arg_tolerance) &&
  Qle_bool (step_hi * inject_Z i - arg_tolerance) (F32.to_Q (table_arg i)).

Definition indices : list Z := map Z.of_nat (seq 0 (Z.to_nat TAB_LEN)).

(** ** Auxiliary notions for the rounding lemmas *)

(** The exponent binary32 stores a number of magnitude [2^e] with. *)
Definition fexp32 (e : Z) : Z := fexp 24 128 e.

Definition sticky (mrs : shr_record) : bool := shr_r mrs || shr_s mrs.

(** The record after [k] right shifts of [m] started with clear bits. *)
Definition shifted (m k : Z) (mrs : shr_record) : Prop :=
  shr_m mrs = m / 2 ^ k /\ (sticky mrs = false <-> m mod 2 ^ k = 0).

(** How a rounded mantissa [m2 <= 2^24] at exponent [E] is stored. *)
Definition rounded (s : bool) (m2 E : Z) : float32 :=
  if m2 =? 0 then S754_zero s
  else if m2 <? 2 ^ 24 then
    if E <=? 104 then S754_finite s (Z.to_pos m2) E else S754_infinity s
  else
    if E + 1 <=? 104 then S754_finite s 8388608%positive (E + 1)
    else S754_infinity s.

(** ** Vocabulary of the further properties *)

(** A sample rate [setF0] cannot divide by: a zero or a NaN. *)
Definition degenerate_rate (x : float32) : bool :=
  match x with
  | S754_zero _ | S754_nan => true
  | _ => false
  end.

(** A well-formed value that is at least [bound], [+inf] included. *)
Definition at_least (bound x : float32) : bool :=
  F32.valid x && F32.geb x bound.

(** A well-formed value that is at most [bound], [-inf] included. *)
Definition at_most (bound x : float32) : bool :=
  F32.valid x && F32.leb x bound.

(** A read that missed the table past its end, or whose cast was
    undefined. *)
Definition read_past_end (a : access) : Prop :=
  (exists i, TAB_LEN <= i /\ a = OutOfBounds i) \/ a = CastUndefined.

(** A read that missed the table before its start, or whose cast was
    undefined. *)
Definition read_before_start (a : access) : Prop :=
  (exists i, i < 0 /\ a = OutOfBounds i) \/ a = CastUndefined.

(** The entries read when the accumulator starts at the integer [a] and
    advances by the integer [m]: entry [(a + (j + 1) * m) mod TAB_LEN] at
    call [j]. *)
Definition stride_reads (this : Oscillator) (a m : Z) (n : nat) : list access :=
  map (fun j => Sample (wavetable this ((a + (Z.of_nat j + 1) * m) mod TAB_LEN)))
    (seq 0 n).

(** A NaN or an infinity. *)
Definition not_finite (x : float32) : bool := negb (F32.is_finite x).

(** A zero, of either sign. *)
Definition is_zero (x : float32) : bool :=
  match x with S754_zero _ => true | _ => false end.

(** Every [render] of the sequence had an undefined cast. *)
Definition all_undefined (out : list access) : Prop :=
  Forall (fun a => a = CastUndefined) out.

(** * Properties *)

(** ** Rounding in binary32 *)

(** *** Numbers of binary digits *)

Lemma digits2_pos_size (p : positive) : digits2_pos p = Pos.size p.
Proof. induction p; simpl; congruence. Qed.

Lemma Zdigits2_log2 (q : Z) : 0 < q -> Zdigits2 q = Z.log2 q + 1.
Proof.
  destruct q as [|p|p]; try lia. intros _. simpl.
  rewrite digits2_pos_size. destruct p; simpl; lia.
Qed.

Lemma Zdigits2_bounds (q : Z) :
  0 < q -> 2 ^ (Zdigits2 q - 1) <= q < 2 ^ Zdigits2 q.
Proof.
  intros H. rewrite (Zdigits2_log2 q H).
  replace (Z.log2 q + 1 - 1) with (Z.log2 q) by lia.
  replace (Z.log2 q + 1) with (Z.succ (Z.log2 q)) by lia.
  apply Z.log2_spec; assumption.
Qed.

Lemma Zdigits2_pos (q : Z) : 0 < q -> 1 <= Zdigits2 q.
Proof. intros H. rewrite (Zdigits2_log2 q H). pose proof (Z.log2_nonneg q). lia. Qed.

Lemma Zdigits2_nonneg (q : Z) : 0 <= Zdigits2 q.
Proof. destruct q; simpl; lia. Qed.

Lemma Zdigits2_unique (q d : Z) :
  2 ^ (d - 1) <= q < 2 ^ d -> 0 < q -> Zdigits2 q = d.
Proof.
  intros H Hq. rewrite (Zdigits2_log2 q Hq).
  assert (0 < d).
  { destruct (Z.leb_spec d 0); try lia.
    assert (2 ^ d <= 2 ^ 0) by (apply Z.pow_le_mono_r; lia || idtac).
    destruct (Z.eq_dec d 0); [subst; simpl in *; lia|].
    rewrite (Z.pow_neg_r 2 d) in H by lia. lia. }
  assert (Z.log2 q = d - 1); [|lia].
  apply Z.log2_unique; [lia|]. replace (Z.succ (d - 1)) with d by lia. exact H.
Qed.

Lemma Zdigits2_le (a b : Z) : 0 < a -> a <= b -> Zdigits2 a <= Zdigits2 b.
Proof.
  intros Ha Hab. rewrite !Zdigits2_log2 by lia.
  pose proof (Z.log2_le_mono a b Hab). lia.
Qed.

Lemma Zdigits2_lt_pow (q d : Z) : 0 <= d -> 0 <= q < 2 ^ d -> Zdigits2 q <= d.
Proof.
  intros Hd [H0 H]. destruct (Z.eq_dec q 0); [subst; simpl; lia|].
  assert (Hq : 0 < q) by lia.
  pose proof (Zdigits2_bounds q Hq) as [Hlo _].
  destruct (Z.leb_spec (Zdigits2 q) d); [assumption|exfalso].
  assert (2 ^ d <= 2 ^ (Zdigits2 q - 1)) by (apply Z.pow_le_mono_r; lia).
  lia.
Qed.

Lemma Zdigits2_mul_pow (q k : Z) :
  0 < q -> 0 <= k -> Zdigits2 (q * 2 ^ k) = Zdigits2 q + k.
Proof.
  intros Hq Hk. pose proof (Zdigits2_bounds q Hq) as [Hlo Hhi].
  pose proof (Zdigits2_pos q Hq).
  assert (0 < 2 ^ k) by (apply Z.pow_pos_nonneg; lia).
  apply Zdigits2_unique; [|nia].
  replace (Zdigits2 q + k - 1) with (Zdigits2 q - 1 + k) by lia.
  rewrite !Z.pow_add_r by lia. nia.
Qed.

Lemma Zdigits2_div_pow (q k : Z) :
  0 < q -> 0 <= k -> k < Zdigits2 q -> Zdigits2 (q / 2 ^ k) = Zdigits2 q - k.
Proof.
  intros Hq Hk Hlt. pose proof (Zdigits2_bounds q Hq) as [Hlo Hhi].
  assert (H2k : 0 < 2 ^ k) by (apply Z.pow_pos_nonneg; lia).
  assert (Hlo' : 2 ^ (Zdigits2 q - k - 1) <= q / 2 ^ k).
  { apply Z.div_le_lower_bound; [assumption|].
    rewrite <- Z.pow_add_r by lia.
    replace (k + (Zdigits2 q - k - 1)) with (Zdigits2 q - 1) by lia. assumption. }
  assert (Hhi' : q / 2 ^ k < 2 ^ (Zdigits2 q - k)).
  { apply Z.div_lt_upper_bound; [assumption|].
    rewrite <- Z.pow_add_r by lia.
    replace (k + (Zdigits2 q - k)) with (Zdigits2 q) by lia. assumption. }
  assert (0 < 2 ^ (Zdigits2 q - k - 1)) by (apply Z.pow_pos_nonneg; lia).
  apply Zdigits2_unique; [split; assumption | lia].
Qed.

(** *** Right shifts and what they lose *)

Lemma shr_1_m (mrs : shr_record) :
  0 <= shr_m mrs -> shr_m (shr_1 mrs) = shr_m mrs / 2.
Proof.
  destruct mrs as [m r s]; simpl. intros Hm.
  rewrite <- Z.div2_div.
  destruct m as [|[p|p|]|p]; try reflexivity; lia.
Qed.

Lemma shr_1_sticky (mrs : shr_record) :
  0 <= shr_m mrs ->
  sticky (shr_1 mrs) = negb (shr_m mrs mod 2 =? 0) || sticky mrs.
Proof.
  destruct mrs as [m r s]; unfold sticky; simpl shr_m. intros Hm.
  rewrite Zmod_even.
  destruct m as [|[p|p|]|p]; try lia; simpl; try reflexivity.
Qed.

Lemma mod_pow_succ (m k : Z) :
  0 <= k ->
  (m mod 2 ^ (k + 1) = 0 <-> m mod 2 ^ k = 0 /\ (m / 2 ^ k) mod 2 = 0).
Proof.
  intros Hk. assert (H2k : 0 < 2 ^ k) by (apply Z.pow_pos_nonneg; lia).
  rewrite Z.pow_add_r, Z.pow_1_r by lia.
  rewrite Z.rem_mul_r by lia.
  pose proof (Z.mod_pos_bound m (2 ^ k) H2k).
  pose proof (Z.mod_pos_bound (m / 2 ^ k) 2 ltac:(lia)).
  split; [intros Hz | intros [Hz1 Hz2]]; nia.
Qed.

Lemma shifted_shr_1 (m k : Z) (mrs : shr_record) :
  0 <= m -> 0 <= k -> shifted m k mrs -> shifted m (k + 1) (shr_1 mrs).
Proof.
  intros Hm Hk [Hq Hs].
  assert (H2k : 0 < 2 ^ k) by (apply Z.pow_pos_nonneg; lia).
  assert (Hq0 : 0 <= shr_m mrs) by (rewrite Hq; apply Z.div_pos; lia).
  split.
  - rewrite shr_1_m, Hq by assumption.
    rewrite Z.pow_add_r, Z.pow_1_r by lia.
    rewrite Z.div_div by lia. reflexivity.
  - rewrite shr_1_sticky by assumption. rewrite mod_pow_succ by assumption.
    rewrite <- Hq, <- Hs.
    destruct (Z.eqb_spec (shr_m mrs mod 2) 0), (sticky mrs); simpl; intuition congruence.
Qed.

Lemma shifted_iter_pos (p : positive) :
  forall (m k : Z) (mrs : shr_record),
    0 <= m -> 0 <= k -> shifted m k mrs ->
    shifted m (k + Zpos p) (iter_pos shr_1 p mrs).
Proof.
  induction p as [p IH|p IH|]; intros m k mrs Hm Hk H; simpl.
  - replace (k + Zpos p~1) with (k + 1 + Zpos p + Zpos p) by lia.
    apply IH; try lia. apply IH; try lia. apply shifted_shr_1; assumption.
  - replace (k + Zpos p~0) with (k + Zpos p + Zpos p) by lia.
    apply IH; try lia. apply IH; try lia. assumption.
  - apply shifted_shr_1; assumption.
Qed.

(** The mantissa alone, whatever the bits the shift starts with. *)
Lemma shr_m_iter_pos (p : positive) :
  forall mrs, 0 <= shr_m mrs ->
    shr_m (iter_pos shr_1 p mrs) = shr_m mrs / 2 ^ Zpos p.
Proof.
  assert (Hstep : forall mrs, 0 <= shr_m mrs -> 0 <= shr_m (shr_1 mrs)).
  { intros mrs H. rewrite shr_1_m by assumption. apply Z.div_pos; lia. }
  induction p as [p IH|p IH|]; intros mrs Hm; simpl iter_pos.
  - assert (H2 : 0 < 2 ^ Zpos p) by (apply Z.pow_pos_nonneg; lia).
    rewrite IH, IH, shr_1_m; try assumption.
    + rewrite !Z.div_div by lia.
      replace (Zpos p~1) with (1 + Zpos p + Zpos p) by lia.
      rewrite !Z.pow_add_r, Z.pow_1_r by lia. f_equal. lia.
    + apply Hstep; assumption.
    + rewrite IH by (apply Hstep; assumption).
      apply Z.div_pos; [apply Hstep; assumption | lia].
  - assert (H2 : 0 < 2 ^ Zpos p) by (apply Z.pow_pos_nonneg; lia).
    rewrite IH, IH; try assumption.
    + rewrite !Z.div_div by lia.
      replace (Zpos p~0) with (Zpos p + Zpos p) by lia.
      rewrite !Z.pow_add_r by lia. reflexivity.
    + rewrite IH by assumption. apply Z.div_pos; lia.
  - rewrite shr_1_m by assumption. reflexivity.
Qed.

Lemma round_nearest_even_bounds (m : Z) (l : location) :
  m <= round_nearest_even m l <= m + 1.
Proof.
  destruct l as [|[| |]]; simpl; try lia.
  destruct (Z.even m); lia.
Qed.

Lemma loc_of_shr_record_exact (mrs : shr_record) :
  sticky mrs = false -> loc_of_shr_record mrs = loc_Exact.
Proof. destruct mrs as [m [|] [|]]; unfold sticky; simpl; congruence. Qed.

Lemma loc_of_shr_record_of_loc (q : Z) (l : location) :
  loc_of_shr_record (shr_record_of_loc q l) = l.
Proof. destruct l as [|[| |]]; reflexivity. Qed.

Lemma shr_m_of_loc (q : Z) (l : location) : shr_m (shr_record_of_loc q l) = q.
Proof. destruct l as [|[| |]]; reflexivity. Qed.

Lemma shr_nonpos (mrs : shr_record) (e n : Z) : n <= 0 -> shr mrs e n = (mrs, e).
Proof. destruct n; try reflexivity; lia. Qed.

(** [shr]: [n] positions when [n] is positive, none otherwise. *)
Lemma shr_spec (q e n : Z) (l : location) :
  0 <= q ->
  exists mrs,
    shr (shr_record_of_loc q l) e n = (mrs, e + Z.max 0 n) /\
    shr_m mrs = q / 2 ^ Z.max 0 n /\
    (n <= 0 -> loc_of_shr_record mrs = l) /\
    (l = loc_Exact -> q mod 2 ^ Z.max 0 n = 0 -> loc_of_shr_record mrs = loc_Exact).
Proof.
  intros Hq. destruct (Z.leb_spec n 0) as [Hn|Hn].
  - exists (shr_record_of_loc q l). rewrite shr_nonpos by assumption.
    rewrite Z.max_l by lia. rewrite Z.pow_0_r, Z.div_1_r, Z.add_0_r.
    rewrite shr_m_of_loc, loc_of_shr_record_of_loc.
    repeat split; try reflexivity. intros ->; reflexivity.
  - destruct n as [|p|p]; try lia. rewrite Z.max_r by lia.
    exists (iter_pos shr_1 p (shr_record_of_loc q l)). repeat split.
    + rewrite shr_m_iter_pos by (rewrite shr_m_of_loc; assumption).
      rewrite shr_m_of_loc. reflexivity.
    + lia.
    + intros -> Hmod.
      apply loc_of_shr_record_exact.
      pose proof (shifted_iter_pos p q 0 (Build_shr_record q false false) Hq
                    (Z.le_refl 0)) as H.
      destruct H as [_ H].
      * split; [simpl; rewrite Z.div_1_r; reflexivity|].
        unfold sticky; simpl. rewrite Z.mod_1_r. tauto.
      * apply H. exact Hmod.
Qed.

(** *** Rounding a mantissa to 24 digits *)

Lemma fexp32_eq (e : Z) : fexp32 e = Z.max (e - 24) (-149).
Proof. reflexivity. Qed.

Lemma rounded_valid (s : bool) (m2 E : Z) :
  0 <= m2 <= 2 ^ 24 -> -149 <= E ->
  (0 < m2 -> fexp32 (Zdigits2 m2 + E) >= E) ->
  valid_binary 24 128 (rounded s m2 E) = true.
Proof.
  intros Hm HE Hc. unfold rounded.
  destruct (Z.eqb_spec m2 0); [reflexivity|].
  destruct (Z.ltb_spec m2 (2 ^ 24)).
  - destruct (Z.leb_spec E 104); [|reflexivity].
    simpl. unfold bounded, canonical_mantissa.
    apply andb_true_intro; split; [|apply Z.leb_le; simpl; lia].
    apply Z.eqb_eq. fold (fexp32 (Z.pos (digits2_pos (Z.to_pos m2)) + E)).
    assert (Hd : Z.pos (digits2_pos (Z.to_pos m2)) = Zdigits2 m2).
    { destruct m2; try lia. reflexivity. }
    rewrite Hd. specialize (Hc ltac:(lia)).
    pose proof (Zdigits2_lt_pow m2 24 ltac:(lia) ltac:(lia)).
    rewrite fexp32_eq in *. lia.
  - destruct (Z.leb_spec (E + 1) 104); [|reflexivity].
    simpl. unfold bounded, canonical_mantissa.
    apply andb_true_intro; split; [|apply Z.leb_le; simpl; lia].
    apply Z.eqb_eq. fold (fexp32 (Z.pos (digits2_pos 8388608%positive) + (E + 1))).
    rewrite fexp32_eq. change (Z.pos (digits2_pos 8388608)) with 24. lia.
Qed.

(** [binary_round_aux] on a mantissa [q] at an exponent [e] not above the
    one it is stored with: the mantissa is shifted to that exponent and
    rounded to [m2], one of the two neighbours of [q / 2^n]; [m2] is the
    quotient itself when the shift loses nothing. *)
Lemma binary_round_aux_spec (s : bool) (q e : Z) (l : location) :
  0 <= q -> e <= fexp32 (Zdigits2 q + e) ->
  exists m2,
    q / 2 ^ (fexp32 (Zdigits2 q + e) - e) <= m2 <= q / 2 ^ (fexp32 (Zdigits2 q + e) - e) + 1 /\
    m2 <= 2 ^ 24 /\
    (fexp32 (Zdigits2 q + e) = e -> m2 = round_nearest_even q l) /\
    (l = loc_Exact -> q mod 2 ^ (fexp32 (Zdigits2 q + e) - e) = 0 ->
     m2 = q / 2 ^ (fexp32 (Zdigits2 q + e) - e)) /\
    binary_round_aux 24 128 s q e l = rounded s m2 (fexp32 (Zdigits2 q + e)) /\
    valid_binary 24 128 (rounded s m2 (fexp32 (Zdigits2 q + e))) = true.
Proof.
  intros Hq He.
  set (E := fexp32 (Zdigits2 q + e)) in *.
  set (n := E - e).
  assert (Hn : 0 <= n) by (unfold n; lia).
  assert (H2n : 0 < 2 ^ n) by (apply Z.pow_pos_nonneg; lia).
  assert (HE : -149 <= E) by (unfold E; rewrite fexp32_eq; lia).
  destruct (shr_spec q e n l Hq) as [mrs [Hshr [Hm [Hl0 Hex]]]].
  rewrite Z.max_r in * by lia.
  replace (e + n) with E in Hshr by (unfold n; lia).
  set (m1 := q / 2 ^ n) in *.
  assert (Hm1 : 0 <= m1) by (apply Z.div_pos; lia).
  (* the shifted mantissa has at most 24 digits *)
  assert (Hm1lt : m1 < 2 ^ 24).
  { apply Z.div_lt_upper_bound; [assumption|].
    destruct (Z.eq_dec q 0) as [->|Hq0]; [lia|].
    pose proof (Zdigits2_bounds q ltac:(lia)) as [_ Hhi].
    pose proof (Zdigits2_pos q ltac:(lia)).
    assert (Zdigits2 q <= n + 24)
      by (unfold n, E; rewrite fexp32_eq; lia).
    rewrite <- Z.pow_add_r by lia.
    assert (2 ^ Zdigits2 q <= 2 ^ (n + 24)) by (apply Z.pow_le_mono_r; lia).
    lia. }
  set (m2 := round_nearest_even (shr_m mrs) (loc_of_shr_record mrs)).
  assert (Hm2 : m1 <= m2 <= m1 + 1)
    by (unfold m2; rewrite Hm; apply round_nearest_even_bounds).
  exists m2.
  (* canonicity of the stored mantissa *)
  assert (Hcan : 0 < m2 -> fexp32 (Zdigits2 m2 + E) >= E).
  { intros Hpos. destruct (Z.eq_dec m1 0) as [Hz|Hnz].
    - (* everything was shifted out: the exponent is the least one *)
      assert (q < 2 ^ n).
      { destruct (Z.ltb_spec q (2 ^ n)); [assumption|exfalso].
        assert (1 <= m1); [|lia].
        apply Z.div_le_lower_bound; lia. }
      assert (Zdigits2 q <= n) by (apply Zdigits2_lt_pow; lia).
      assert (E = -149) by (unfold n, E in *; rewrite fexp32_eq in *; lia).
      rewrite fexp32_eq. lia.
    - assert (Hq0 : 0 < q) by (destruct (Z.eq_dec q 0) as [->|]; [|lia];
                               unfold m1 in Hnz; rewrite Z.div_0_l in Hnz; lia).
      assert (Hnd : n < Zdigits2 q).
      { destruct (Z.ltb_spec n (Zdigits2 q)); [assumption|exfalso].
        pose proof (Zdigits2_bounds q Hq0) as [_ Hhi].
        assert (2 ^ Zdigits2 q <= 2 ^ n) by (apply Z.pow_le_mono_r; lia).
        assert (m1 = 0); [|lia]. apply Z.div_small; lia. }
      pose proof (Zdigits2_div_pow q n Hq0 Hn Hnd) as Hd1. fold m1 in Hd1.
      pose proof (Zdigits2_le m1 m2 ltac:(lia) ltac:(lia)).
      assert (fexp32 (Zdigits2 m1 + E) = E).
      { rewrite Hd1. replace (Zdigits2 q - n + E) with (Zdigits2 q + e)
          by (unfold n; lia). reflexivity. }
      rewrite fexp32_eq in *. lia. }
  split; [exact Hm2|]. split; [lia|].
  split.
  { intros HEe. unfold m2. rewrite Hm, Hl0 by (unfold n; lia).
    unfold m1. replace n with 0 by (unfold n; lia).
    rewrite Z.pow_0_r, Z.div_1_r. reflexivity. }
  split.
  { intros Hl Hmod. unfold m2. rewrite (Hex Hl Hmod), Hm. reflexivity. }
  split; [|apply rounded_valid; [lia|assumption|assumption]].
  unfold binary_round_aux, shr_fexp.
  fold (fexp32 (Zdigits2 q + e)). fold E. fold n. rewrite Hshr. fold m2.
  fold (fexp32 (Zdigits2 m2 + E)).
  assert (Hm2nn : 0 <= m2) by lia.
  destruct (shr_spec m2 E (fexp32 (Zdigits2 m2 + E) - E) loc_Exact Hm2nn)
    as [mrs2 [Hshr2 [Hm3 _]]].
  rewrite Hshr2. rewrite Hm3. unfold rounded.
  destruct (Z.eqb_spec m2 0) as [Hz|Hnz].
  - rewrite Hz. simpl Zdigits2. rewrite Z.div_0_l; [reflexivity|].
    apply Z.pow_nonzero; lia.
  - destruct (Z.ltb_spec m2 (2 ^ 24)) as [Hlt|Hge].
    + pose proof (Zdigits2_lt_pow m2 24 ltac:(lia) ltac:(lia)).
      rewrite Z.max_l by (rewrite fexp32_eq; lia).
      rewrite Z.pow_0_r, Z.div_1_r, Z.add_0_r.
      destruct m2 as [|p|p]; try lia. reflexivity.
    + assert (m2 = 2 ^ 24) by lia. subst m2.
      replace (round_nearest_even (shr_m mrs) (loc_of_shr_record mrs)) with (2 ^ 24) in *.
      change (Zdigits2 (2 ^ 24)) with 25.
      replace (fexp32 (25 + E) - E) with 1 by (rewrite fexp32_eq; lia).
      change (2 ^ 24 / 2 ^ Z.max 0 1) with (Z.pos 8388608).
      replace (E + Z.max 0 1) with (E + 1) by lia.
      reflexivity.
Qed.

(** *** Sums and differences *)

Lemma pos_iter_xO (d m : positive) : Zpos (Pos.iter xO m d) = Zpos m * 2 ^ Zpos d.
Proof.
  induction d as [|d IH] using Pos.peano_ind.
  - simpl. lia.
  - rewrite Pos.iter_succ, Pos2Z.inj_xO, IH, Pos2Z.inj_succ, Z.pow_succ_r by lia. lia.
Qed.

(** [shl_align] brings the exponent down to [e'] when it is above it. *)
Lemma shl_align_spec (m : positive) (e e' : Z) :
  Zpos (fst (shl_align m e e')) = Zpos m * 2 ^ (e - Z.min e e') /\
  snd (shl_align m e e') = Z.min e e'.
Proof.
  unfold shl_align. destruct (e' - e) as [|d|d] eqn:Hd; cbn [fst snd].
  - rewrite Z.min_l by lia. rewrite Z.sub_diag, Z.pow_0_r. lia.
  - rewrite Z.min_l by lia. rewrite Z.sub_diag, Z.pow_0_r. lia.
  - rewrite Z.min_r by lia. rewrite pos_iter_xO.
    replace (e - e') with (Zpos d) by lia. lia.
Qed.

(** [binary_round]: a positive integer [m] at exponent [e], rounded. *)
Lemma binary_round_spec (s : bool) (m : positive) (e : Z) :
  let E := fexp32 (Zdigits2 (Zpos m) + e) in
  exists m2,
    0 <= m2 <= 2 ^ 24 /\
    (E <= e -> m2 = Zpos m * 2 ^ (e - E)) /\
    (e <= E -> Zpos m / 2 ^ (E - e) <= m2 <= Zpos m / 2 ^ (E - e) + 1) /\
    (e <= E -> Zpos m mod 2 ^ (E - e) = 0 -> m2 = Zpos m / 2 ^ (E - e)) /\
    binary_round 24 128 s m e = rounded s m2 E /\
    valid_binary 24 128 (rounded s m2 E) = true.
Proof.
  intros E. unfold binary_round.
  change (Z.pos (digits2_pos m)) with (Zdigits2 (Zpos m)).
  fold (fexp32 (Zdigits2 (Zpos m) + e)). fold E.
  pose proof (shl_align_spec m e E) as [Hmz Hez].
  destruct (shl_align m e E) as [mz ez]. simpl fst in Hmz. simpl snd in Hez.
  assert (Hdig : Zdigits2 (Zpos mz) + ez = Zdigits2 (Zpos m) + e).
  { rewrite Hmz, Hez. rewrite Zdigits2_mul_pow by lia. lia. }
  assert (Hpre : ez <= fexp32 (Zdigits2 (Zpos mz) + ez)).
  { rewrite Hdig. fold E. lia. }
  destruct (binary_round_aux_spec s (Zpos mz) ez loc_Exact ltac:(lia) Hpre)
    as [m2 [Hb [Hle [Heq [Hex [Hr Hv]]]]]].
  rewrite Hdig in *. fold E in Hb, Heq, Hex, Hr, Hv.
  exists m2. split.
  { split; [|assumption]. assert (0 <= Zpos mz / 2 ^ (E - ez)); [|lia].
    apply Z.div_pos; [lia|]. apply Z.pow_pos_nonneg; lia. }
  split.
  { intros HEe. rewrite Heq by lia. simpl. rewrite Hmz.
    rewrite Z.min_r by lia. reflexivity. }
  assert (Hcase : e <= E -> Zpos mz = Zpos m /\ ez = e).
  { intros HeE. rewrite Hmz, Hez. rewrite Z.min_l by lia.
    rewrite Z.sub_diag. simpl. lia. }
  split.
  { intros HeE. destruct (Hcase HeE) as [Hmm Hee].
    rewrite Hmm, Hee in Hb. exact Hb. }
  split.
  { intros HeE Hmod. destruct (Hcase HeE) as [Hmm Hee].
    rewrite Hmm, Hee in Hex. apply Hex; [reflexivity|assumption]. }
  split; assumption.
Qed.

Lemma bounded_spec (m : positive) (e : Z) :
  bounded 24 128 m e = true <-> fexp32 (Zdigits2 (Zpos m) + e) = e /\ e <= 104.
Proof.
  unfold bounded, canonical_mantissa. rewrite andb_true_iff, Z.eqb_eq, Z.leb_le.
  reflexivity.
Qed.

(** A canonical mantissa has at most 24 digits, and exactly 24 above the
    least exponent. *)
Lemma bounded_digits (m : positive) (e : Z) :
  bounded 24 128 m e = true ->
  -149 <= e <= 104 /\ Zpos m < 2 ^ 24 /\ (-149 < e -> 2 ^ 23 <= Zpos m).
Proof.
  rewrite bounded_spec, fexp32_eq. intros [Hc He].
  pose proof (Zdigits2_bounds (Zpos m) ltac:(lia)) as [Hlo Hhi].
  pose proof (Zdigits2_pos (Zpos m) ltac:(lia)).
  split; [lia|]. split.
  - assert (2 ^ Zdigits2 (Zpos m) <= 2 ^ 24) by (apply Z.pow_le_mono_r; lia). lia.
  - intros Hn. replace (Zdigits2 (Z.pos m)) with 24 in Hlo by lia. exact Hlo.
Qed.

Lemma add_finite_pos (mx my : positive) (ex ey : Z) :
  exists M : positive,
    Zpos M = Zpos mx * 2 ^ (ex - Z.min ex ey) + Zpos my * 2 ^ (ey - Z.min ex ey) /\
    SFadd 24 128 (S754_finite false mx ex) (S754_finite false my ey) =
    binary_round 24 128 false M (Z.min ex ey).
Proof.
  unfold SFadd, cond_Zopp.
  pose proof (shl_align_spec mx ex (Z.min ex ey)) as [Hx _].
  pose proof (shl_align_spec my ey (Z.min ex ey)) as [Hy _].
  rewrite (Z.min_r ex (Z.min ex ey)) in Hx by lia.
  rewrite (Z.min_r ey (Z.min ex ey)) in Hy by lia.
  exists (fst (shl_align mx ex (Z.min ex ey)) + fst (shl_align my ey (Z.min ex ey)))%positive.
  split; [|reflexivity].
  rewrite Pos2Z.inj_add, Hx, Hy. reflexivity.
Qed.

Lemma sub_finite_pos (mx my : positive) (e : Z) :
  SFsub 24 128 (S754_finite false mx e) (S754_finite false my e) =
  binary_normalize 24 128 (Zpos mx - Zpos my) e false.
Proof.
  unfold SFsub, cond_Zopp.
  rewrite Z.min_id. unfold shl_align. rewrite Z.sub_diag. reflexivity.
Qed.

(** *** The accumulator's range *)

Lemma compare_cont_Eq (p q : positive) : Pos.compare_cont Eq p q = Pos.compare p q.
Proof. reflexivity. Qed.

(** The literal of [M_2PI] is read as [13176795 * 2^-21], the binary32 value
    nearest to it. *)
Lemma M_2PI_nearest :
  M_2PI = S754_finite false 13176795 (-21) /\
  (Qabs (F32.to_Q M_2PI - (62831853071795862319959 # 10000000000000000000000))
   < (1 # 2) * Qpower 2 (-21))%Q.
Proof. split; vm_compute; reflexivity. Qed.

Lemma f32_TAB_LEN : f32 TAB_LEN = S754_finite false 8388608 (-12).
Proof. reflexivity. Qed.

Lemma f32_0 : f32 0 = S754_zero false.
Proof. reflexivity. Qed.

Lemma in_range_inv (x : float32) :
  in_range x = true ->
  (exists s, x = S754_zero s) \/
  (exists m e, x = S754_finite false m e /\ bounded 24 128 m e = true /\ e <= -13).
Proof.
  unfold in_range, F32.valid, F32.leb, F32.ltb, F32.prec, F32.emax.
  rewrite f32_TAB_LEN, f32_0, !andb_true_iff.
  intros [[Hv Hle] Hlt].
  destruct x as [s|[|]| |[|] m e]; try discriminate.
  - left; eexists; reflexivity.
  - right. exists m, e. split; [reflexivity|]. split; [exact Hv|].
    simpl in Hv. apply bounded_digits in Hv as [He [Hm Hn]].
    unfold SFltb, SFcompare in Hlt.
    destruct (Z.compare_spec e (-12)) as [Heq|Hlt'|Hgt]; try discriminate; try lia.
    subst e. specialize (Hn ltac:(lia)).
    rewrite compare_cont_Eq in Hlt.
    rewrite Pos2Z.inj_compare in Hlt.
    destruct (Z.compare_spec (Zpos m) (Zpos 8388608)); try discriminate. lia.
Qed.

Lemma in_range_zero (s : bool) : in_range (S754_zero s) = true.
Proof. destruct s; reflexivity. Qed.

Lemma in_range_finite (m : positive) (e : Z) :
  bounded 24 128 m e = true -> e <= -13 ->
  in_range (S754_finite false m e) = true.
Proof.
  intros Hb He. unfold in_range, F32.valid, F32.leb, F32.ltb, F32.prec, F32.emax.
  rewrite f32_TAB_LEN, f32_0.
  simpl valid_binary. rewrite Hb. simpl.
  unfold SFltb, SFcompare.
  destruct (Z.compare_spec e (-12)); first [reflexivity | lia].
Qed.

(** Comparison with the table length, by the exponent alone. *)
Lemma geb_TAB_LEN_finite (m : positive) (e : Z) :
  bounded 24 128 m e = true ->
  SFleb (f32 TAB_LEN) (S754_finite false m e) = (-12 <=? e).
Proof.
  intros Hb. rewrite f32_TAB_LEN. apply bounded_digits in Hb as [He [Hm Hn]].
  unfold SFleb, SFcompare.
  destruct (Z.compare_spec (-12) e) as [Heq|Hlt|Hgt].
  - subst e. specialize (Hn ltac:(lia)).
    rewrite compare_cont_Eq.
    rewrite Pos2Z.inj_compare.
    destruct (Z.compare_spec (Zpos 8388608) (Zpos m)); try reflexivity. lia.
  - symmetry. apply Z.leb_le. lia.
  - symmetry. apply Z.leb_gt. lia.
Qed.

Lemma rounded_cases (s : bool) (m2 E : Z) :
  0 <= m2 -> E + 1 <= 104 ->
  rounded s m2 E = S754_zero s \/
  exists m e, rounded s m2 E = S754_finite s m e /\
              ((e = E /\ Zpos m = m2) \/ (e = E + 1 /\ 2 ^ 24 <= m2)).
Proof.
  intros Hm HE. unfold rounded.
  destruct (Z.eqb_spec m2 0); [left; reflexivity|right].
  destruct (Z.ltb_spec m2 (2 ^ 24)).
  - destruct (Z.leb_spec E 104); try lia.
    eexists _, _. split; [reflexivity|]. left. split; [reflexivity|].
    rewrite Z2Pos.id by lia. reflexivity.
  - destruct (Z.leb_spec (E + 1) 104); try lia.
    eexists _, _. split; [reflexivity|]. right. split; [reflexivity|assumption].
Qed.

Lemma sum_bound (mx my ex ey : Z) :
  0 < mx < 2 ^ 24 -> 0 < my < 2 ^ 24 -> ex <= -13 -> ey <= -13 ->
  mx * 2 ^ (ex - Z.min ex ey) + my * 2 ^ (ey - Z.min ex ey)
  <= (2 ^ 24 - 1) * 2 ^ (-12 - Z.min ex ey).
Proof.
  intros Hx Hy Hex Hey. set (ez := Z.min ex ey).
  assert (Hez : ez <= ex /\ ez <= ey) by (unfold ez; lia).
  replace (-12 - ez) with (Z.succ (-13 - ez)) by lia.
  rewrite Z.pow_succ_r by lia.
  assert (HA : 0 < 2 ^ (ex - ez) <= 2 ^ (-13 - ez)).
  { split; [apply Z.pow_pos_nonneg; lia | apply Z.pow_le_mono_r; lia]. }
  assert (HB : 0 < 2 ^ (ey - ez) <= 2 ^ (-13 - ez)).
  { split; [apply Z.pow_pos_nonneg; lia | apply Z.pow_le_mono_r; lia]. }
  nia.
Qed.

(** The sum of two accumulator-range values stays below twice the table
    length. *)
Lemma add_in_range (x y : float32) :
  in_range x = true -> in_range y = true ->
  (exists s, SFadd 24 128 x y = S754_zero s) \/
  (exists m e, SFadd 24 128 x y = S754_finite false m e /\
               bounded 24 128 m e = true /\ e <= -12).
Proof.
  intros Hx Hy.
  destruct (in_range_inv x Hx) as [[sx ->]|[mx [ex [-> [Hbx Hex]]]]];
  destruct (in_range_inv y Hy) as [[sy ->]|[my [ey [-> [Hby Hey]]]]].
  - left. destruct sx, sy; eexists; reflexivity.
  - right. exists my, ey. repeat split; [assumption|lia].
  - right. exists mx, ex. repeat split; [assumption|lia].
  - right.
    destruct (add_finite_pos mx my ex ey) as [M [HM ->]].
    pose proof (bounded_digits mx ex Hbx) as [Hrx [Hmx _]].
    pose proof (bounded_digits my ey Hby) as [Hry [Hmy _]].
    pose proof (sum_bound (Zpos mx) (Zpos my) ex ey ltac:(lia) ltac:(lia) Hex Hey) as Hsum.
    rewrite <- HM in Hsum. clear HM.
    set (ez := Z.min ex ey) in *.
    assert (Hez : -149 <= ez <= -13) by (unfold ez; lia).
    set (k := -12 - ez) in *.
    assert (H2k : 0 < 2 ^ k) by (apply Z.pow_pos_nonneg; unfold k; lia).
    assert (HD : Zdigits2 (Zpos M) <= 24 + k).
    { apply Zdigits2_lt_pow; [unfold k; lia|]. split; [lia|].
      rewrite Z.pow_add_r by (unfold k; lia). nia. }
    destruct (binary_round_spec false M ez) as [m2 [Hm2 [Hexact [Hshift [Hmod [-> Hv]]]]]].
    set (E := fexp32 (Zdigits2 (Zpos M) + ez)) in *.
    assert (HE : -149 <= E <= -12) by (unfold E; rewrite fexp32_eq; unfold k in HD; lia).
    assert (Hnocarry : E = -12 -> m2 < 2 ^ 24).
    { intros HE12.
      assert (Hn : E - ez = k) by (unfold k; lia).
      specialize (Hshift ltac:(lia)). specialize (Hmod ltac:(lia)).
      rewrite Hn in *.
      assert (Hq : Zpos M / 2 ^ k <= 2 ^ 24 - 1)
        by (apply Z.div_le_upper_bound; lia).
      destruct (Z.eq_dec (Zpos M / 2 ^ k) (2 ^ 24 - 1)) as [Heq|Hne]; [|lia].
      assert (Zpos M mod 2 ^ k = 0).
      { pose proof (Z.div_mod (Zpos M) (2 ^ k) ltac:(lia)) as Hdm.
        pose proof (Z.mod_pos_bound (Zpos M) (2 ^ k) H2k).
        rewrite Heq in Hdm. lia. }
      rewrite Hmod by assumption. lia. }
    destruct (rounded_cases false m2 E ltac:(lia) ltac:(lia)) as [Hz|[m [e [Hr Hcase]]]].
    + exfalso.
      (* a positive sum does not round to zero here: it is at least the
         smaller operand, which is representable *)
      unfold rounded in Hz. destruct (Z.eqb_spec m2 0) as [Hm0|Hm0].
      * destruct (Z.le_ge_cases E ez) as [Hle|Hge].
        -- rewrite Hexact in Hm0 by assumption.
           assert (0 < 2 ^ (ez - E)) by (apply Z.pow_pos_nonneg; lia). nia.
        -- specialize (Hshift Hge).
           assert (1 <= Zpos M / 2 ^ (E - ez)); [|lia].
           apply Z.div_le_lower_bound; [apply Z.pow_pos_nonneg; lia|].
           pose proof (Zdigits2_bounds (Zpos M) ltac:(lia)) as [Hlo _].
           assert (E - ez <= Zdigits2 (Zpos M) - 1).
           { unfold E. rewrite fexp32_eq. pose proof (Zdigits2_pos (Zpos M)). lia. }
           assert (2 ^ (E - ez) <= 2 ^ (Zdigits2 (Zpos M) - 1))
             by (apply Z.pow_le_mono_r; lia).
           lia.
      * destruct (m2 <? 2 ^ 24); [destruct (E <=? 104)|destruct (E + 1 <=? 104)];
          discriminate.
    + rewrite Hr in *. exists m, e. split; [reflexivity|]. split; [exact Hv|].
      destruct Hcase as [[-> _]|[-> Hc]]; [lia|].
      destruct (Z.eq_dec E (-12)) as [HE12|]; [|lia].
      specialize (Hnocarry HE12). lia.
Qed.

(** *** Exact values *)

Lemma Qpower_2_pos (k : Z) : (0 < Qpower 2 k)%Q.
Proof. apply Qpower_0_lt. reflexivity. Qed.

Lemma Qpower_2_inject (k : Z) : 0 <= k -> (Qpower 2 k == inject_Z (2 ^ k))%Q.
Proof. intros Hk. rewrite Zpower_Qpower by assumption. reflexivity. Qed.

Lemma Qpower_2_plus (a b : Z) : (Qpower 2 (a + b) == Qpower 2 a * Qpower 2 b)%Q.
Proof. apply Qpower_plus. discriminate. Qed.

(** Scaling a dyadic number to an integer. *)
Lemma dyadic_scale (A a k : Z) :
  0 <= a + k ->
  (inject_Z A * Qpower 2 a * Qpower 2 k == inject_Z (A * 2 ^ (a + k)))%Q.
Proof.
  intros H. rewrite <- Qmult_assoc, <- Qpower_2_plus, Qpower_2_inject by assumption.
  rewrite inject_Z_mult. reflexivity.
Qed.

Lemma dyadic_lt (A B a b k : Z) :
  0 <= a + k -> 0 <= b + k ->
  (inject_Z A * Qpower 2 a < inject_Z B * Qpower 2 b)%Q ->
  A * 2 ^ (a + k) < B * 2 ^ (b + k).
Proof.
  intros Ha Hb H. rewrite Zlt_Qlt.
  rewrite <- !dyadic_scale by assumption.
  apply Qmult_lt_compat_r; [apply Qpower_2_pos | exact H].
Qed.

Lemma dyadic_eq (A B a b k : Z) :
  0 <= a + k -> 0 <= b + k ->
  A * 2 ^ (a + k) = B * 2 ^ (b + k) ->
  (inject_Z A * Qpower 2 a == inject_Z B * Qpower 2 b)%Q.
Proof.
  intros Ha Hb H.
  apply (Qmult_inj_r _ _ (Qpower 2 k)).
  - pose proof (Qpower_2_pos k) as Hp. intros Hz. rewrite Hz in Hp.
    apply (Qlt_irrefl 0). exact Hp.
  - rewrite !dyadic_scale by assumption. rewrite H. reflexivity.
Qed.

(** *** The product and the quotient of [setF0] *)

Lemma fexp32_le (a b : Z) : a <= b -> fexp32 a <= fexp32 b.
Proof. rewrite !fexp32_eq. lia. Qed.

(** [TAB_LEN * f] is exact unless it overflows. *)
Lemma mul_TAB_LEN (m : positive) (e : Z) :
  bounded 24 128 m e = true ->
  SFmul 24 128 (f32 TAB_LEN) (S754_finite false m e) = S754_infinity false \/
  exists ma ea,
    SFmul 24 128 (f32 TAB_LEN) (S754_finite false m e) = S754_finite false ma ea /\
    bounded 24 128 ma ea = true /\
    (F32.to_Q (S754_finite false ma ea) == 2048 * F32.to_Q (S754_finite false m e))%Q.
Proof.
  intros Hb. pose proof (bounded_digits m e Hb) as [He [Hm _]].
  apply bounded_spec in Hb as [Hc _]. rewrite fexp32_eq in Hc.
  rewrite f32_TAB_LEN. unfold SFmul. simpl xorb.
  pose proof (Zdigits2_pos (Zpos m) ltac:(lia)) as Hd1.
  assert (Hq : Zpos (8388608 * m) = Zpos m * 2 ^ 23) by lia.
  rewrite Hq.
  assert (Hd : Zdigits2 (Zpos m * 2 ^ 23) = Zdigits2 (Zpos m) + 23)
    by (apply Zdigits2_mul_pow; lia).
  assert (Hpre : -12 + e <= fexp32 (Zdigits2 (Zpos m * 2 ^ 23) + (-12 + e)))
    by (rewrite Hd, fexp32_eq; lia).
  destruct (binary_round_aux_spec false (Zpos m * 2 ^ 23) (-12 + e) loc_Exact
              ltac:(lia) Hpre) as [m2 [_ [_ [_ [Hex [-> Hv]]]]]].
  rewrite Hd in *.
  set (E := fexp32 (Zdigits2 (Zpos m) + 23 + (-12 + e))) in *.
  set (n := E - (-12 + e)) in *.
  assert (Hn : 0 <= n <= 23 /\ Zdigits2 (Zpos m) - 1 <= n)
    by (unfold n, E; rewrite fexp32_eq; lia).
  assert (Hsplit : Zpos m * 2 ^ 23 = Zpos m * 2 ^ (23 - n) * 2 ^ n).
  { rewrite <- Z.mul_assoc, <- Z.pow_add_r by lia. do 2 f_equal. lia. }
  assert (H2n : 0 < 2 ^ n) by (apply Z.pow_pos_nonneg; lia).
  assert (Hm2 : m2 = Zpos m * 2 ^ (23 - n)).
  { rewrite Hex; [|reflexivity|].
    - rewrite Hsplit. apply Z.div_mul. lia.
    - rewrite Hsplit. apply Z.mod_mul. lia. }
  assert (H2 : 0 < 2 ^ (23 - n)) by (apply Z.pow_pos_nonneg; lia).
  assert (Hlt : m2 < 2 ^ 24).
  { pose proof (Zdigits2_bounds (Zpos m) ltac:(lia)) as [_ Hhi].
    assert (2 ^ Zdigits2 (Zpos m) * 2 ^ (23 - n) <= 2 ^ 24).
    { rewrite <- Z.pow_add_r by lia. apply Z.pow_le_mono_r; lia. }
    rewrite Hm2. nia. }
  unfold rounded in *.
  destruct (Z.eqb_spec m2 0); [nia|].
  destruct (Z.ltb_spec m2 (2 ^ 24)); [|lia].
  destruct (Z.leb_spec E 104); [right|left; reflexivity].
  exists (Z.to_pos m2), E. split; [reflexivity|]. split; [exact Hv|].
  unfold F32.to_Q, cond_Zopp. rewrite Z2Pos.id by lia.
  rewrite Qmult_assoc. change 2048%Q with (inject_Z 2048).
  rewrite <- inject_Z_mult.
  apply (dyadic_eq _ _ _ _ (149 + 12)); try lia.
  rewrite Hm2. rewrite <- Z.mul_assoc, <- Z.pow_add_r by lia.
  replace (23 - n + (E + (149 + 12))) with (11 + (e + (149 + 12))) by (unfold n; lia).
  rewrite Z.pow_add_r by lia. change (2 ^ 11) with 2048. ring.
Qed.

Lemma div_core_spec (m1 e1 m2 e2 : Z) :
  0 < m1 -> 0 < m2 ->
  exists l,
    SFdiv_core_binary 24 128 m1 e1 m2 e2 =
    (m1 * 2 ^ (e1 - e2 - Z.min (fexp32 (Zdigits2 m1 + e1 - (Zdigits2 m2 + e2))) (e1 - e2))
       / m2,
     Z.min (fexp32 (Zdigits2 m1 + e1 - (Zdigits2 m2 + e2))) (e1 - e2), l).
Proof.
  intros H1 H2. unfold SFdiv_core_binary.
  fold (fexp32 (Zdigits2 m1 + e1 - (Zdigits2 m2 + e2))).
  set (e' := Z.min (fexp32 (Zdigits2 m1 + e1 - (Zdigits2 m2 + e2))) (e1 - e2)).
  set (s := e1 - e2 - e').
  assert (Hs : 0 <= s) by (unfold s, e'; lia).
  assert (Hm' : match s with Z.pos _ => Z.shiftl m1 s | 0 => m1 | Z.neg _ => 0 end
                = m1 * 2 ^ s).
  { clearbody s. destruct s as [|p|p]; try lia.
    apply Z.shiftl_mul_pow2. lia. }
  rewrite Hm'. unfold Z.div.
  destruct (Z.div_eucl (m1 * 2 ^ s) m2) as [q r].
  eexists. reflexivity.
Qed.

(** A quotient below half the table length lands in the accumulator's
    range. *)
Lemma div_in_range (ma ms : positive) (ea es : Z) :
  bounded 24 128 ma ea = true -> bounded 24 128 ms es = true ->
  (F32.to_Q (S754_finite false ma ea) < 1024 * F32.to_Q (S754_finite false ms es))%Q ->
  in_range (SFdiv 24 128 (S754_finite false ma ea) (S754_finite false ms es)) = true.
Proof.
  intros Hba Hbs Hlt.
  pose proof (bounded_digits ma ea Hba) as [Hea _].
  pose proof (bounded_digits ms es Hbs) as [Hes _].
  unfold F32.to_Q, cond_Zopp in Hlt.
  rewrite Qmult_assoc in Hlt. change 1024%Q with (inject_Z 1024) in Hlt.
  rewrite <- inject_Z_mult in Hlt.
  pose proof (Zdigits2_bounds (Zpos ma) ltac:(lia)) as [Halo Hahi].
  pose proof (Zdigits2_bounds (Zpos ms) ltac:(lia)) as [Hslo Hshi].
  pose proof (Zdigits2_pos (Zpos ma) ltac:(lia)) as Hda.
  pose proof (Zdigits2_pos (Zpos ms) ltac:(lia)) as Hds.
  set (da := Zdigits2 (Zpos ma)) in *. set (ds := Zdigits2 (Zpos ms)) in *.
  (* the quotient is below 2^10, so the digit counts differ by at most 10 *)
  assert (Ht : da + ea - (ds + es) <= 10).
  { pose proof (dyadic_lt (Zpos ma) (1024 * Zpos ms) ea es 300
                  ltac:(lia) ltac:(lia) Hlt) as H.
    assert (H1 : 2 ^ (da - 1 + (ea + 300)) <= Zpos ma * 2 ^ (ea + 300)).
    { rewrite Z.pow_add_r by lia.
      apply Z.mul_le_mono_nonneg_r; [apply Z.pow_nonneg; lia | assumption]. }
    assert (H2 : 1024 * Zpos ms * 2 ^ (es + 300) < 2 ^ (10 + ds + (es + 300))).
    { rewrite (Z.pow_add_r 2 (10 + ds)), (Z.pow_add_r 2 10) by lia.
      change (2 ^ 10) with 1024.
      assert (0 < 2 ^ (es + 300)) by (apply Z.pow_pos_nonneg; lia). nia. }
    assert (H3 : 2 ^ (da - 1 + (ea + 300)) < 2 ^ (10 + ds + (es + 300))) by lia.
    apply Z.pow_lt_mono_r_iff in H3; lia. }
  unfold SFdiv.
  destruct (div_core_spec (Zpos ma) ea (Zpos ms) es ltac:(lia) ltac:(lia)) as [l ->].
  fold da ds. simpl xorb.
  set (e' := Z.min (fexp32 (da + ea - (ds + es))) (ea - es)).
  set (s := ea - es - e').
  assert (He' : e' <= -14)
    by (unfold e'; pose proof (fexp32_le _ _ Ht) as Hf; rewrite (fexp32_eq 10) in Hf; lia).
  assert (Hs : 0 <= s) by (unfold s, e'; lia).
  set (q := Zpos ma * 2 ^ s / Zpos ms).
  assert (H2s : 0 < 2 ^ s) by (apply Z.pow_pos_nonneg; lia).
  assert (Hq0 : 0 <= q) by (apply Z.div_pos; nia).
  (* an upper bound on the quotient from the hypothesis *)
  assert (Hqhi : q < 2 ^ (10 - e')).
  { pose proof (dyadic_lt (Zpos ma) (1024 * Zpos ms) ea es (- es - e')
                  ltac:(unfold s in Hs; lia) ltac:(lia) Hlt) as H.
    replace (ea + (- es - e')) with s in H by (unfold s; lia).
    replace (es + (- es - e')) with (- e') in H by lia.
    apply Z.div_lt_upper_bound; [lia|].
    replace (10 - e') with (10 + - e') by lia. rewrite Z.pow_add_r by lia.
    change (2 ^ 10) with 1024. lia. }
  assert (Hdq : Zdigits2 q <= 10 - e') by (apply Zdigits2_lt_pow; lia).
  (* a lower bound on its number of digits, for canonicity *)
  assert (Hdqlo : da + s - ds <= Zdigits2 q).
  { pose proof (Zdigits2_nonneg q).
    destruct (Z.leb_spec (da + s - ds) 0); [lia|].
    assert (2 ^ (da + s - ds - 1) <= q).
    { apply Z.div_le_lower_bound; [lia|].
      assert (Hx : Zpos ms * 2 ^ (da + s - ds - 1) <= 2 ^ ds * 2 ^ (da + s - ds - 1)).
      { apply Z.mul_le_mono_nonneg_r; [apply Z.pow_nonneg; lia | lia]. }
      rewrite <- Z.pow_add_r in Hx by lia.
      replace (ds + (da + s - ds - 1)) with (da - 1 + s) in Hx by lia.
      rewrite Z.pow_add_r in Hx by lia. nia. }
    assert (0 < 2 ^ (da + s - ds - 1)) by (apply Z.pow_pos_nonneg; lia).
    pose proof (Zdigits2_bounds q ltac:(lia)) as [_ Hhi].
    destruct (Z.leb_spec (da + s - ds) (Zdigits2 q)); [assumption|exfalso].
    assert (2 ^ Zdigits2 q <= 2 ^ (da + s - ds - 1)) by (apply Z.pow_le_mono_r; lia).
    lia. }
  assert (Hpre : e' <= fexp32 (Zdigits2 q + e')).
  { assert (Hle : da + ea - (ds + es) <= Zdigits2 q + e') by (unfold s in Hdqlo; lia).
    apply fexp32_le in Hle. unfold e' at 1. lia. }
  destruct (binary_round_aux_spec false q e' l Hq0 Hpre)
    as [m2 [Hb [Hm2 [_ [_ [-> Hv]]]]]].
  set (E := fexp32 (Zdigits2 q + e')) in *.
  assert (HE : E <= -14) by (unfold E; rewrite fexp32_eq; lia).
  assert (Hm2nn : 0 <= m2).
  { assert (0 <= q / 2 ^ (E - e')); [|lia].
    apply Z.div_pos; [lia|apply Z.pow_pos_nonneg; lia]. }
  destruct (rounded_cases false m2 E Hm2nn ltac:(lia)) as [->|[m [e [Hr Hcase]]]].
  - apply in_range_zero.
  - rewrite Hr in *. apply in_range_finite; [exact Hv|].
    destruct Hcase as [[-> _]|[-> _]]; lia.
Qed.

(** ** The accumulator *)

(** The single subtraction brings a sum of two in-range values back. *)
Lemma wrap_in_range (x : float32) :
  ((exists s, x = S754_zero s) \/
   (exists m e, x = S754_finite false m e /\ bounded 24 128 m e = true /\ e <= -12)) ->
  in_range (wrap x) = true.
Proof.
  intros [[s ->]|[m [e [-> [Hb He]]]]].
  - destruct s; reflexivity.
  - unfold wrap, F32.geb. fold (f32 TAB_LEN).
    rewrite (geb_TAB_LEN_finite m e Hb).
    destruct (Z.leb_spec (-12) e) as [Hge|Hlt].
    + assert (e = -12) by lia. subst e.
      pose proof (bounded_digits m (-12) Hb) as [_ [Hhi Hlo]].
      specialize (Hlo ltac:(lia)).
      unfold F32.sub, F32.prec, F32.emax. rewrite f32_TAB_LEN.
      rewrite sub_finite_pos.
      destruct (Z.eq_dec (Zpos m) (Zpos 8388608)) as [Heq|Hne].
      * rewrite Heq, Z.sub_diag. reflexivity.
      * assert (Hpos : 0 < Zpos m - Zpos 8388608) by lia.
        destruct (Zpos m - Zpos 8388608) as [|M|M] eqn:HM; try lia.
        unfold binary_normalize.
        destruct (binary_round_spec false M (-12)) as [m2 [Hm2 [Hexact [_ [_ [-> Hv]]]]]].
        set (E := fexp32 (Zdigits2 (Zpos M) + -12)) in *.
        assert (HMlt : Zpos M < 2 ^ 23) by lia.
        pose proof (Zdigits2_lt_pow (Zpos M) 23 ltac:(lia) ltac:(lia)) as Hd.
        pose proof (Zdigits2_pos (Zpos M) ltac:(lia)) as Hd1.
        assert (HE : E = Zdigits2 (Zpos M) - 36) by (unfold E; rewrite fexp32_eq; lia).
        specialize (Hexact ltac:(lia)).
        assert (Hlt24 : 0 < m2 < 2 ^ 24).
        { pose proof (Zdigits2_bounds (Zpos M) ltac:(lia)) as [_ Hhi'].
          assert (0 < 2 ^ (-12 - E)) by (apply Z.pow_pos_nonneg; lia).
          assert (2 ^ Zdigits2 (Zpos M) * 2 ^ (-12 - E) = 2 ^ 24).
          { rewrite <- Z.pow_add_r by lia. f_equal. lia. }
          nia. }
        destruct (rounded_cases false m2 E ltac:(lia) ltac:(lia))
          as [Hz|[m' [e' [Hr Hcase]]]].
        -- rewrite Hz. reflexivity.
        -- rewrite Hr in *. apply in_range_finite; [exact Hv|].
           destruct Hcase as [[-> _]|[_ Hc]]; lia.
    + apply in_range_finite; [assumption|lia].
Qed.

(** An in-range value casts to an index of the table. *)
Lemma to_int_in_range (x : float32) :
  in_range x = true -> exists i, F32.to_int x = Some i /\ 0 <= i < TAB_LEN.
Proof.
  intros H. destruct (in_range_inv x H) as [[s ->]|[m [e [-> [Hb He]]]]].
  - exists 0. split; [reflexivity|unfold TAB_LEN; lia].
  - pose proof (bounded_digits m e Hb) as [_ [Hhi _]].
    assert (Hi : 0 <= Z.shiftl (Zpos m) e < 2048).
    { rewrite Z.shiftl_div_pow2 by lia.
      assert (0 < 2 ^ (- e)) by (apply Z.pow_pos_nonneg; lia).
      split; [apply Z.div_pos; lia|].
      apply Z.div_lt_upper_bound; [assumption|].
      assert (2 ^ 13 <= 2 ^ (- e)) by (apply Z.pow_le_mono_r; lia).
      change (2 ^ 13) with 8192 in *. change (2 ^ 24) with 16777216 in *. lia. }
    exists (Z.shiftl (Zpos m) e). split; [|exact Hi].
    unfold F32.to_int, F32.trunc, cond_Zopp, F32.INT_MIN, F32.INT_MAX.
    destruct (Z.leb_spec (- 2 ^ 31) (Z.shiftl (Zpos m) e)); [|simpl in *; lia].
    destruct (Z.leb_spec (Z.shiftl (Zpos m) e) (2 ^ 31 - 1)); [reflexivity|simpl in *; lia].
Qed.

(** One call of [render] from a state in range. *)
Lemma render_in_range (this : Oscillator) :
  in_range (idx this) = true -> in_range (idx_inc this) = true ->
  in_range (idx (fst (render this))) = true /\
  exists i, 0 <= i < TAB_LEN /\ snd (render this) = Sample (wavetable this i).
Proof.
  intros Hi Hinc.
  assert (Hr : in_range (advance this) = true).
  { unfold advance. apply wrap_in_range.
    exact (add_in_range (idx this) (idx_inc this) Hi Hinc). }
  split; [exact Hr|].
  destruct (to_int_in_range _ Hr) as [i [Hto Hib]].
  exists i. split; [exact Hib|].
  unfold render. cbn [fst snd set_idx idx wavetable]. rewrite Hto.
  unfold table_read.
  destruct (Z.leb_spec 0 i); [|lia]. destruct (Z.ltb_spec i TAB_LEN); [|lia].
  reflexivity.
Qed.

(** Only a finite number with a clear sign bit has a positive value. *)
Lemma to_Q_pos_inv (x : float32) :
  (0 < F32.to_Q x)%Q -> exists m e, x = S754_finite false m e.
Proof.
  destruct x as [s|s| |[|] m e]; simpl; intros H;
    try (exfalso; exact (Qlt_irrefl 0 H)).
  - exfalso. unfold cond_Zopp in H.
    assert (Hp := Qpower_2_pos e).
    assert (Hn : (inject_Z (Z.neg m) < 0)%Q) by reflexivity.
    assert (Hm : (inject_Z (Z.neg m) * 2 ^ e < 0 * 2 ^ e)%Q)
      by (apply Qmult_lt_compat_r; assumption).
    rewrite Qmult_0_l in Hm.
    exact (Qlt_irrefl 0 (Qlt_trans _ _ _ H Hm)).
  - eexists _, _. reflexivity.
Qed.

(** [setF0] with a frequency below half the sample rate leaves an increment
    in range, unless the product overflows. *)
Lemma setF0_in_range (f : float32) (this : Oscillator) :
  sub_nyquist (fs this) f -> no_overflow f = true ->
  in_range (idx_inc (setF0 f this)) = true.
Proof.
  intros [Hvs [Hvf [Hpos Hhalf]]] Hfin.
  assert (Hq : (0 < F32.to_Q (fs this) /\
                2048 * F32.to_Q f < 1024 * F32.to_Q (fs this))%Q).
  { revert Hpos Hhalf. generalize (F32.to_Q f) (F32.to_Q (fs this)).
    intros a b Ha Hab. unfold Qdiv in Hab.
    change (/ 2)%Q with (1 # 2)%Q in Hab. split; Lqa.lra. }
  destruct Hq as [Hspos Hlt].
  destruct (to_Q_pos_inv f Hpos) as [m [e ->]].
  destruct (to_Q_pos_inv (fs this) Hspos) as [ms [es Hs]].
  unfold setF0. cbn [idx_inc set_idx_inc]. rewrite Hs in *.
  unfold no_overflow, F32.mul, F32.div, F32.prec, F32.emax in *.
  fold (f32 TAB_LEN) in *.
  destruct (mul_TAB_LEN m e Hvf) as [Hinf|[ma [ea [Hmul [Hba Hval]]]]].
  - rewrite Hinf in Hfin. discriminate.
  - rewrite Hmul. apply div_in_range; [assumption|exact Hvs|].
    rewrite Hval. exact Hlt.
Qed.

(** ** The table *)

Lemma table_init_loop_spec (sin32 : float32 -> float32) (n : nat) :
  forall (i : Z) (t : table) (j : Z),
    table_init_loop sin32 n i t j =
    if (i <=? j) && (j <? i + Z.of_nat n) then sin32 (table_arg j) else t j.
Proof.
  induction n as [|n IH]; intros i t j.
  - simpl table_init_loop.
    destruct (Z.leb_spec i j), (Z.ltb_spec j (i + Z.of_nat 0)); simpl; try reflexivity; lia.
  - simpl table_init_loop. rewrite IH. unfold table_set.
    destruct (Z.leb_spec (i + 1) j), (Z.ltb_spec j (i + 1 + Z.of_nat n)),
      (Z.leb_spec i j), (Z.ltb_spec j (i + Z.of_nat (S n))), (Z.eqb_spec j i);
      simpl; try reflexivity; try lia.
    subst j. reflexivity.
Qed.

Lemma wavetable_new (sin32 : float32 -> float32) (raw : Oscillator)
  (sample_rate f0_arg : float32) (i : Z) :
  0 <= i < TAB_LEN ->
  wavetable (Oscillator_new sin32 raw sample_rate f0_arg) i = sin32 (table_arg i).
Proof.
  intros Hi. unfold Oscillator_new, setF0, table_init.
  cbn [wavetable set_idx_inc set_wavetable set_idx set_fs].
  rewrite table_init_loop_spec.
  destruct (Z.leb_spec 0 i); [|lia].
  destruct (Z.ltb_spec i (0 + Z.of_nat (Z.to_nat TAB_LEN))); [reflexivity|].
  unfold TAB_LEN in *. lia.
Qed.

(** ** What the calls leave alone *)

Lemma call_frame (o : op) (this : Oscillator) :
  wavetable (fst (call o this)) = wavetable this /\
  fs (fst (call o this)) = fs this /\
  f0 (fst (call o this)) = f0 this.
Proof. destruct o; repeat split; reflexivity. Qed.

Lemma run_cons (o : op) (ops : list op) (this : Oscillator) :
  run (o :: ops) this =
  (fst (run ops (fst (call o this))),
   snd (call o this) ++ snd (run ops (fst (call o this)))).
Proof.
  simpl run. destruct (call o this) as [this1 out1]. cbn [fst snd].
  destruct (run ops this1) as [this2 out2]. reflexivity.
Qed.

Lemma run_app (ops1 ops2 : list op) (this : Oscillator) :
  run (ops1 ++ ops2) this =
  (fst (run ops2 (fst (run ops1 this))),
   snd (run ops1 this) ++ snd (run ops2 (fst (run ops1 this)))).
Proof.
  revert this. induction ops1 as [|o ops1 IH]; intros this.
  - simpl. destruct (run ops2 this); reflexivity.
  - rewrite <- app_comm_cons, !run_cons, IH. cbn [fst snd].
    rewrite app_assoc. reflexivity.
Qed.

Lemma run_frame (ops : list op) (this : Oscillator) :
  wavetable (fst (run ops this)) = wavetable this /\
  fs (fst (run ops this)) = fs this /\
  f0 (fst (run ops this)) = f0 this.
Proof.
  revert this. induction ops as [|o ops IH]; intros this.
  - repeat split; reflexivity.
  - rewrite run_cons. cbn [fst].
    destruct (IH (fst (call o this))) as [H1 [H2 H3]].
    destruct (call_frame o this) as [G1 [G2 G3]].
    repeat split; congruence.
Qed.

(** ** Sequences of calls from a state in range *)

Lemma run_in_range (ops : list op) :
  forall this : Oscillator,
    in_range (idx this) = true -> in_range (idx_inc this) = true ->
    frequencies (fun f => sub_nyquist (fs this) f /\ no_overflow f = true) ops ->
    in_range (idx (fst (run ops this))) = true /\
    in_range (idx_inc (fst (run ops this))) = true /\
    Forall (fun a => exists i, 0 <= i < TAB_LEN /\ a = Sample (wavetable this i))
      (snd (run ops this)).
Proof.
  induction ops as [|o ops IH]; intros this Hi Hinc Hf.
  - repeat split; try assumption. constructor.
  - rewrite run_cons. cbn [fst snd].
    inversion Hf as [|o' ops' Ho Hops]; subst.
    destruct (call_frame o this) as [Hw [Hfs _]].
    assert (Hstep : in_range (idx (fst (call o this))) = true /\
                    in_range (idx_inc (fst (call o this))) = true /\
                    Forall (fun a => exists i, 0 <= i < TAB_LEN /\
                                               a = Sample (wavetable this i))
                      (snd (call o this))).
    { destruct o as [f|].
      - destruct Ho as [Hsn Hno]. cbn [call fst snd].
        repeat split; [exact Hi | apply setF0_in_range; assumption | constructor].
      - destruct (render_in_range this Hi Hinc) as [Hr [i [Hib Hs]]].
        unfold call. rewrite (surjective_pairing (render this)). cbn [fst snd].
        repeat split; [exact Hr | exact Hinc |].
        constructor; [|constructor]. exists i. split; assumption. }
    destruct Hstep as [Hi1 [Hinc1 Hout1]].
    destruct (IH (fst (call o this)) Hi1 Hinc1) as [Hi2 [Hinc2 Hout2]].
    { rewrite Hfs. exact Hops. }
    repeat split; try assumption.
    apply Forall_app. split; [exact Hout1|].
    rewrite Hw in Hout2. exact Hout2.
Qed.

Lemma dyadic_le_intro (A B a b k : Z) :
  0 <= a + k -> 0 <= b + k ->
  A * 2 ^ (a + k) <= B * 2 ^ (b + k) ->
  (inject_Z A * Qpower 2 a <= inject_Z B * Qpower 2 b)%Q.
Proof.
  intros Ha Hb H. rewrite Zle_Qle in H.
  rewrite <- !dyadic_scale in H by assumption.
  apply Qmult_le_r in H; [exact H | apply Qpower_2_pos].
Qed.

Lemma dyadic_lt_intro (A B a b k : Z) :
  0 <= a + k -> 0 <= b + k ->
  A * 2 ^ (a + k) < B * 2 ^ (b + k) ->
  (inject_Z A * Qpower 2 a < inject_Z B * Qpower 2 b)%Q.
Proof.
  intros Ha Hb H. rewrite Zlt_Qlt in H.
  rewrite <- !dyadic_scale in H by assumption.
  apply Qmult_lt_r in H; [exact H | apply Qpower_2_pos].
Qed.

(** The magnitude of a finite number lies between the shifted mantissa and
    its successor. *)
Lemma shiftl_brackets (m : positive) (e : Z) :
  (inject_Z (Z.shiftl (Zpos m) e) <= inject_Z (Zpos m) * Qpower 2 e /\
   inject_Z (Zpos m) * Qpower 2 e < inject_Z (Z.shiftl (Zpos m) e) + 1)%Q.
Proof.
  set (z := Z.shiftl (Zpos m) e).
  assert (H1 : (inject_Z z == inject_Z z * Qpower 2 0)%Q) by (simpl; ring).
  assert (H2 : (inject_Z z + 1 == inject_Z (z + 1) * Qpower 2 0)%Q)
    by (rewrite inject_Z_plus; simpl; ring).
  rewrite H2. rewrite H1 at 1. clear H1 H2.
  destruct (Z.leb_spec 0 e) as [He|He].
  - assert (Hz : z = Zpos m * 2 ^ e) by (apply Z.shiftl_mul_pow2; assumption).
    split; [apply (dyadic_le_intro _ _ _ _ 0) | apply (dyadic_lt_intro _ _ _ _ 0)];
      try lia; rewrite !Z.add_0_r, Z.pow_0_r; lia.
  - assert (Hz : z = Zpos m / 2 ^ (- e)) by (apply Z.shiftl_div_pow2; lia).
    assert (Hp : 0 < 2 ^ (- e)) by (apply Z.pow_pos_nonneg; lia).
    pose proof (Z.div_mod (Zpos m) (2 ^ (- e)) ltac:(lia)) as Hdm.
    pose proof (Z.mod_pos_bound (Zpos m) (2 ^ (- e)) Hp) as Hmod.
    rewrite <- Hz in Hdm. clearbody z.
    split; [apply (dyadic_le_intro _ _ _ _ (- e)) | apply (dyadic_lt_intro _ _ _ _ (- e))];
      try lia; rewrite Z.add_0_l, Z.add_opp_diag_r, Z.pow_0_r; nia.
Qed.

Lemma trunc_integer_part (x : float32) (i : Z) :
  F32.trunc x = Some i -> integer_part x i.
Proof.
  destruct x as [s|s| |s m e]; simpl; intros H; inversion H; subst; clear H.
  - unfold integer_part; simpl. split; intros _; split; reflexivity || discriminate.
  - pose proof (shiftl_brackets m e) as [Hlo Hhi].
    assert (Hpos : (0 < inject_Z (Zpos m) * Qpower 2 e)%Q).
    { apply Qmult_lt_0_compat; [reflexivity | apply Qpower_2_pos]. }
    unfold integer_part, F32.to_Q.
    destruct s; unfold cond_Zopp.
    + assert (Hneg : (inject_Z (Z.neg m) * Qpower 2 e ==
                      - (inject_Z (Zpos m) * Qpower 2 e))%Q).
      { change (Z.neg m) with (- Zpos m). rewrite inject_Z_opp. ring. }
      rewrite Hneg. rewrite inject_Z_opp.
      revert Hlo Hhi Hpos.
      generalize (inject_Z (Zpos m) * Qpower 2 e)%Q (inject_Z (Z.shiftl (Zpos m) e)).
      intros v z Hlo Hhi Hpos. split; intros Hs; split; Lqa.lra.
    + revert Hlo Hhi Hpos.
      generalize (inject_Z (Zpos m) * Qpower 2 e)%Q (inject_Z (Z.shiftl (Zpos m) e)).
      intros v z Hlo Hhi Hpos. split; intros Hs; split; Lqa.lra.
Qed.

Lemma to_int_trunc (x : float32) (i : Z) :
  F32.to_int x = Some i -> F32.trunc x = Some i.
Proof.
  unfold F32.to_int. destruct (F32.trunc x) as [z|]; [|discriminate].
  destruct ((F32.INT_MIN <=? z) && (z <=? F32.INT_MAX)); congruence.
Qed.

(** A finite value has an integer part; a NaN or an infinity has none and
    its cast is undefined. *)
Lemma trunc_finite (x : float32) :
  F32.is_finite x = true -> exists i, F32.trunc x = Some i.
Proof.
  destruct x as [s|s| |s m e]; try discriminate; intros _; eexists; reflexivity.
Qed.

Lemma to_int_undefined (x : float32) :
  F32.is_finite x = false -> F32.to_int x = None.
Proof. destruct x as [s|s| |s m e]; try discriminate; reflexivity. Qed.

(** The cast yields the integer part exactly when it fits an [int]. *)
Lemma to_int_fits (x : float32) (i : Z) :
  F32.trunc x = Some i ->
  (F32.INT_MIN <= i <= F32.INT_MAX -> F32.to_int x = Some i) /\
  (i < F32.INT_MIN \/ F32.INT_MAX < i -> F32.to_int x = None).
Proof.
  intros H. unfold F32.to_int. rewrite H.
  destruct (Z.leb_spec F32.INT_MIN i), (Z.leb_spec i F32.INT_MAX); cbn [andb];
    split; intros; first [reflexivity | lia].
Qed.

(** A value has one integer part. *)
Lemma integer_part_unique (x : float32) (i j : Z) :
  integer_part x i -> integer_part x j -> i = j.
Proof.
  unfold integer_part. generalize (F32.to_Q x). intros q [Hp Hn] [Hp' Hn'].
  assert (H : (inject_Z i < inject_Z (j + 1) /\ inject_Z j < inject_Z (i + 1))%Q).
  { rewrite !inject_Z_plus. change (inject_Z 1) with 1%Q.
    destruct (Qlt_le_dec q 0) as [Hq|Hq].
    - apply Qlt_le_weak in Hq.
      destruct (Hn Hq) as [A B]. destruct (Hn' Hq) as [A' B'].
      revert A B A' B'. generalize (inject_Z i) (inject_Z j). intros a b A B A' B'.
      split; Lqa.lra.
    - destruct (Hp Hq) as [A B]. destruct (Hp' Hq) as [A' B'].
      revert A B A' B'. generalize (inject_Z i) (inject_Z j). intros a b A B A' B'.
      split; Lqa.lra. }
  destruct H as [H1 H2]. rewrite <- Zlt_Qlt in H1, H2. lia.
Qed.

(** A value in the accumulator's range is not negative. *)
Lemma in_range_nonneg (x : float32) :
  in_range x = true -> (0 <= F32.to_Q x)%Q.
Proof.
  intros H. destruct (in_range_inv x H) as [[s ->]|[m [e [-> _]]]].
  - apply Qle_refl.
  - unfold F32.to_Q, cond_Zopp. apply Qlt_le_weak.
    apply Qmult_lt_0_compat; [reflexivity | apply Qpower_2_pos].
Qed.

Lemma Oscillator_new_eq (sin32 : float32 -> float32) (raw : Oscillator)
  (sample_rate f0_arg : float32) :
  Oscillator_new sin32 raw sample_rate f0_arg =
  mkOscillator (table_init_loop sin32 (Z.to_nat TAB_LEN) 0 (wavetable raw))
    (f32 0) (F32.div (F32.mul (f32 TAB_LEN) f0_arg) sample_rate)
    (f0 raw) sample_rate.
Proof. reflexivity. Qed.

(** The scenarios do not depend on what the table holds: forget it before
    computing. *)
Ltac forget_table :=
  rewrite ?Oscillator_new_eq;
  match goal with
  | |- context [table_init_loop ?s ?n ?i ?t] =>
      generalize (table_init_loop s n i t); intro
  end.

Lemma frequencies_renders (P : float32 -> Prop) (n : nat) :
  frequencies P (renders n).
Proof.
  unfold frequencies, renders. apply Forall_forall. intros o Ho.
  apply repeat_spec in Ho. subst o. exact I.
Qed.

Lemma sin_clip_unit (x : float32) :
  F32.leb (f32 (-1)) (sin_clip x) = true /\ F32.leb (sin_clip x) (f32 1) = true.
Proof.
  unfold sin_clip.
  destruct (F32.leb (f32 (-1)) (sin_taylor x) && F32.leb (sin_taylor x) (f32 1)) eqn:H.
  - apply andb_true_iff in H. exact H.
  - split; reflexivity.
Qed.

Lemma render_frame_idx_inc (n : nat) (this : Oscillator) :
  idx_inc (fst (run (renders n) this)) = idx_inc this.
Proof.
  revert this. induction n as [|n IH]; intros this; [reflexivity|].
  change (renders (S n)) with (CallRender :: renders n).
  rewrite run_cons. cbn [fst]. rewrite IH. reflexivity.
Qed.

Lemma renders_S (n : nat) : renders (S n) = renders n ++ [CallRender].
Proof.
  unfold renders. induction n as [|n IH]; [reflexivity|].
  simpl in *. rewrite <- IH. reflexivity.
Qed.

(** ** Real numbers *)

Lemma PI_bounds :
  (3141592653 / 1000000000 <= PI <= 3141592654 / 1000000000)%R.
Proof.
  pose proof (PI_2_3_7_ineq 4) as [Hlo Hhi].
  unfold sum_f_R0, tg_alt, PI_2_3_7_tg, Ratan_seq in Hlo, Hhi.
  simpl in Hlo, Hhi.
  split; lra.
Qed.

(** ** The sine *)

Lemma sin_abs_le (h : R) : (Rabs (sin h) <= Rabs h)%R.
Proof.
  assert (Hpos : forall x : R, (0 < x -> - x <= sin x <= x)%R).
  { intros x Hx. split; [|left; apply sin_lt_x; assumption].
    destruct (Rle_dec x PI) as [Hle|Hgt].
    - pose proof (sin_ge_0 x ltac:(lra) Hle). lra.
    - pose proof (SIN_bound x) as [Hlo _]. pose proof PI2_1. lra. }
  destruct (Rtotal_order h 0) as [Hneg|[Hz|Hp]].
  - pose proof (Hpos (- h)%R ltac:(lra)) as [H1 H2]. rewrite sin_neg in H1, H2.
    rewrite (Rabs_left h) by assumption.
    apply Rabs_le. lra.
  - subst h. rewrite sin_0, Rabs_R0. lra.
  - pose proof (Hpos h Hp) as [H1 H2].
    rewrite (Rabs_right h) by lra. apply Rabs_le. lra.
Qed.

Lemma sin_lipschitz (a b : R) : (Rabs (sin a - sin b) <= Rabs (a - b))%R.
Proof.
  rewrite form4. rewrite !Rabs_mult.
  pose proof (COS_bound ((a + b) / 2)) as [Hc1 Hc2].
  assert (Hc : (Rabs (cos ((a + b) / 2)) <= 1)%R) by (apply Rabs_le; lra).
  pose proof (sin_abs_le ((a - b) / 2)) as Hs.
  assert (Hh : (Rabs ((a - b) / 2) = Rabs (a - b) / 2)%R).
  { unfold Rdiv. rewrite Rabs_mult. rewrite (Rabs_right (/ 2)) by lra. reflexivity. }
  rewrite Hh in Hs. rewrite (Rabs_right 2) by lra.
  pose proof (Rabs_pos (cos ((a + b) / 2))).
  pose proof (Rabs_pos (sin ((a - b) / 2))).
  pose proof (Rabs_pos (a - b)).
  assert (Rabs (cos ((a + b) / 2)) * Rabs (sin ((a - b) / 2))
          <= 1 * (Rabs (a - b) / 2))%R.
  { apply Rmult_le_compat; lra. }
  lra.
Qed.

(** ** The arguments of the table *)

Lemma Q2R_inject_Z (z : Z) : Q2R (inject_Z z) = IZR z.
Proof. unfold Q2R, inject_Z. simpl. field. Qed.

Lemma table_args_close : forallb table_arg_close indices = true.
Proof. vm_compute. reflexivity. Qed.

Lemma table_arg_close_at (i : Z) : 0 <= i < TAB_LEN -> table_arg_close i = true.
Proof.
  intros Hi. pose proof table_args_close as H.
  rewrite forallb_forall in H. apply H.
  unfold indices. apply in_map_iff. exists (Z.to_nat i).
  split; [lia|]. apply in_seq. unfold TAB_LEN in *. lia.
Qed.

(** Every argument is within a millionth of the exact multiple of
    [2 * PI / TAB_LEN]. *)
Lemma table_arg_error (i : Z) :
  0 <= i < TAB_LEN ->
  (Rabs (F32.to_R (table_arg i) - 2 * PI * IZR i / IZR TAB_LEN) <= 1 / 1000000)%R.
Proof.
  intros Hi. pose proof (table_arg_close_at i Hi) as H.
  unfold table_arg_close in H. apply andb_true_iff in H as [H1 H2].
  apply Qle_bool_iff, Qle_Rle in H1. apply Qle_bool_iff, Qle_Rle in H2.
  rewrite Q2R_plus, Q2R_mult, Q2R_inject_Z in H1.
  rewrite Q2R_minus, Q2R_mult, Q2R_inject_Z in H2.
  fold (F32.to_R (table_arg i)) in H1, H2.
  assert (Hlo : Q2R step_lo = (3141592653 / 1024000000000)%R)
    by (unfold Q2R, step_lo; simpl; lra).
  assert (Hhi : Q2R step_hi = (3141592654 / 1024000000000)%R)
    by (unfold Q2R, step_hi; simpl; lra).
  assert (Htol : Q2R arg_tolerance = (1 / 1000000)%R)
    by (unfold Q2R, arg_tolerance; simpl; lra).
  rewrite Hlo, Htol in H1. rewrite Hhi, Htol in H2.
  pose proof PI_bounds as [Hpl Hph].
  assert (Hi0 : (0 <= IZR i)%R) by (apply IZR_le; lia).
  assert (HA : (3141592653 / 1000000000 * IZR i <= PI * IZR i)%R)
    by (apply Rmult_le_compat_r; assumption).
  assert (HB : (PI * IZR i <= 3141592654 / 1000000000 * IZR i)%R)
    by (apply Rmult_le_compat_r; assumption).
  change (IZR TAB_LEN) with 2048%R.
  apply Rabs_le. lra.
Qed.

Lemma Rabs_le_bounds (x b : R) : (Rabs x <= b -> - b <= x <= b)%R.
Proof.
  intros H. pose proof (Rle_abs x) as H1. pose proof (Rle_abs (- x)) as H2.
  rewrite Rabs_Ropp in H2. lra.
Qed.

(** The first terms of the sine series bracket the sine. *)
Lemma sin_series_bounds (a : R) :
  (0 <= a <= 4 ->
   a - a ^ 3 / 6 <= sin a <= a - a ^ 3 / 6 + a ^ 5 / 120)%R.
Proof.
  intros [H0 H4]. pose proof (pre_sin_bound a 0 H0 H4) as [Hlo Hhi].
  unfold sin_approx, sin_term in Hlo, Hhi. simpl in Hlo, Hhi.
  split; lra.
Qed.

Lemma to_R_table_arg_18 : F32.to_R (table_arg 18) = (14823894 / 268435456)%R.
Proof.
  assert (H : table_arg 18 = S754_finite false 14823894 (-28))
    by (vm_compute; reflexivity).
  rewrite H. unfold F32.to_R, F32.to_Q, Q2R. simpl. lra.
Qed.

(** The sine at the argument of entry 18. *)
Lemma sin_table_arg_18 :
  (55195 / 1000000 <= sin (F32.to_R (table_arg 18)) <= 55196 / 1000000)%R.
Proof.
  rewrite to_R_table_arg_18.
  pose proof (sin_series_bounds (14823894 / 268435456)%R ltac:(lra)) as [Hlo Hhi].
  split; lra.
Qed.

(** The scenarios' sine is good enough there. *)
Lemma sin_clip_error_18 : (sine_error sin_clip 18 <= 9 / 1000000)%R.
Proof.
  unfold sine_error.
  assert (H : sin_clip (table_arg 18) = S754_finite false 14816359 (-28))
    by (vm_compute; reflexivity).
  rewrite H. pose proof sin_table_arg_18 as [Hlo Hhi].
  assert (Hv : F32.to_R (S754_finite false 14816359 (-28)) = (14816359 / 268435456)%R)
    by (unfold F32.to_R, F32.to_Q, Q2R; simpl; lra).
  rewrite Hv. apply Rabs_le. lra.
Qed.

(** An entry of the table against the exact sine, given the accuracy of
    the library's sine at its argument. *)
Lemma table_entry_error (sin32 : float32 -> float32) (i : Z) :
  0 <= i < TAB_LEN ->
  (sine_error sin32 i <= 9 / 1000000)%R ->
  (Rabs (F32.to_R (sin32 (table_arg i)) - sin (2 * PI * IZR i / IZR TAB_LEN))
   <= 1 / 100000)%R.
Proof.
  intros Hi Herr. unfold sine_error in Herr.
  pose proof (table_arg_error i Hi) as Harg.
  pose proof (sin_lipschitz (F32.to_R (table_arg i)) (2 * PI * IZR i / IZR TAB_LEN)) as Hl.
  set (v := F32.to_R (sin32 (table_arg i))) in *.
  set (s1 := sin (F32.to_R (table_arg i))) in *.
  set (s2 := sin (2 * PI * IZR i / IZR TAB_LEN)) in *.
  replace (v - s2)%R with ((v - s1) + (s1 - s2))%R by ring.
  eapply Rle_trans; [apply Rabs_triang|]. lra.
Qed.

(** * The oscillator's properties *)

(** C1.  One call of [render], from any state: the accumulator becomes
    [idx + idx_inc], less [TAB_LEN] once when that sum is at least
    [TAB_LEN] (one subtraction, no modulo).  The value returned is the table
    entry at the integer part of the new accumulator: a finite accumulator
    has exactly one integer part [i], the cast yields it whenever it fits an
    [int], and the call then returns entry [i] when [0 <= i < TAB_LEN] and
    reads outside the table otherwise; in particular an accumulator in
    [[0, TAB_LEN)] always returns a table entry.  The cast is undefined only
    for an integer part that does not fit an [int], a NaN or an infinity.
    Nothing else is modified. *)
Theorem render_spec (this : Oscillator) :
  let acc := F32.add (idx this) (idx_inc this) in
  let this' := fst (render this) in
  (F32.geb acc (f32 TAB_LEN) = false -> idx this' = acc) /\
  (F32.geb acc (f32 TAB_LEN) = true -> idx this' = F32.sub acc (f32 TAB_LEN)) /\
  (* when the cast succeeds, and what is read then *)
  (F32.is_finite (idx this') = true ->
   exists i,
     integer_part (idx this') i /\
     (forall j, integer_part (idx this') j -> j = i) /\
     (F32.INT_MIN <= i <= F32.INT_MAX ->
      F32.to_int (idx this') = Some i /\
      snd (render this) =
        if (0 <=? i) && (i <? TAB_LEN) then Sample (wavetable this i)
        else OutOfBounds i) /\
     (i < F32.INT_MIN \/ F32.INT_MAX < i ->
      F32.to_int (idx this') = None /\ snd (render this) = CastUndefined)) /\
  (F32.is_finite (idx this') = false ->
   F32.to_int (idx this') = None /\ snd (render this) = CastUndefined) /\
  (in_range (idx this') = true ->
   exists i, 0 <= i < TAB_LEN /\ integer_part (idx this') i /\
             snd (render this) = Sample (wavetable this i)) /\
  (* the same, read from the result of the cast *)
  (forall i, F32.to_int (idx this') = Some i ->
     integer_part (idx this') i /\
     snd (render this) =
       if (0 <=? i) && (i <? TAB_LEN) then Sample (wavetable this i)
       else OutOfBounds i) /\
  (F32.to_int (idx this') = None -> snd (render this) = CastUndefined) /\
  wavetable this' = wavetable this /\ idx_inc this' = idx_inc this /\
  f0 this' = f0 this /\ fs this' = fs this.
Proof.
  intros acc this'.
  assert (Hidx : idx this' = wrap acc) by reflexivity.
  assert (Hout : snd (render this) = table_read (wavetable this) (F32.to_int (idx this')))
    by reflexivity.
  split; [|split; [|split; [|split; [|split; [|split; [|split]]]]]].
  - intros Hge. rewrite Hidx. unfold wrap. fold (f32 TAB_LEN). rewrite Hge. reflexivity.
  - intros Hge. rewrite Hidx. unfold wrap. fold (f32 TAB_LEN). rewrite Hge. reflexivity.
  - intros Hfin. destruct (trunc_finite _ Hfin) as [i Ht].
    pose proof (trunc_integer_part _ _ Ht) as Hip.
    destruct (to_int_fits _ _ Ht) as [Hin Hno].
    exists i. split; [exact Hip|]. split.
    { intros j Hj. exact (integer_part_unique _ _ _ Hj Hip). }
    split.
    + intros Hi. rewrite Hout, (Hin Hi). split; reflexivity.
    + intros Hi. rewrite Hout, (Hno Hi). split; reflexivity.
  - intros Hfin. rewrite Hout, (to_int_undefined _ Hfin). split; reflexivity.
  - intros Hr. destruct (to_int_in_range _ Hr) as [i [Hto Hib]].
    exists i. split; [exact Hib|]. split.
    + apply trunc_integer_part, to_int_trunc. exact Hto.
    + rewrite Hout, Hto. unfold table_read.
      destruct (Z.leb_spec 0 i); [|lia]. destruct (Z.ltb_spec i TAB_LEN); [|lia].
      reflexivity.
  - intros i Hi. split.
    + apply trunc_integer_part, to_int_trunc. assumption.
    + rewrite Hout, Hi. reflexivity.
  - intros Hnone. rewrite Hout, Hnone. reflexivity.
  - repeat split.
Qed.

(** C2.  From a state whose accumulator and increment are both in
    [[0, TAB_LEN)], [render] leaves the accumulator in [[0, TAB_LEN)] and
    reads inside the table; the same holds after any number of calls. *)
Theorem render_keeps_accumulator_in_range (n : nat) (this : Oscillator) :
  in_range (idx this) = true -> in_range (idx_inc this) = true ->
  in_range (idx (fst (render this))) = true /\
  (exists i, 0 <= i < TAB_LEN /\ snd (render this) = Sample (wavetable this i)) /\
  in_range (idx (fst (run (renders n) this))) = true.
Proof.
  intros Hi Hinc. destruct (render_in_range this Hi Hinc) as [H1 H2].
  split; [exact H1|]. split; [exact H2|].
  apply (run_in_range (renders n) this Hi Hinc). apply frequencies_renders.
Qed.

(** C2 at [idx = 2000], [idx_inc = 100]: the first call wraps. *)
Lemma render_keeps_accumulator_in_range_witness :
  let this := mkOscillator (fun _ => f32 0) (f32 2000) (f32 100) S754_nan (f32 48000) in
  in_range (idx (fst (render this))) = true /\
  (exists i, 0 <= i < TAB_LEN /\ snd (render this) = Sample (wavetable this i)) /\
  in_range (idx (fst (run (renders 3) this))) = true.
Proof.
  intros this.
  apply (render_keeps_accumulator_in_range 3 this); reflexivity.
Defined.

(** C3.  A frequency at or beyond the sample rate makes the increment reach
    [TAB_LEN], and then one subtraction is not enough: there is a reachable
    object which, after [setF0] with a frequency above its sample rate, has
    [idx >= TAB_LEN] after the wrap and reads outside the table; and there is
    one, reached with frequencies below half the sample rate and with its
    accumulator in range, for which this happens with the frequency equal
    to the sample rate: at 48 kHz, two samples at [24000 - 2^-9] Hz bring
    the accumulator to [2048 - 2^-13], and its sum with 2048 rounds up to
    4096. *)
Theorem wrap_fails_from_the_sample_rate (sin32 : float32 -> float32) :
  (exists this f0_Hz,
      reachable sin32 this /\ F32.ltb (fs this) f0_Hz = true /\
      wrap_fails this f0_Hz) /\
  (exists this f0_Hz,
      reachable_sub_nyquist sin32 this /\ in_range (idx this) = true /\
      f0_Hz = fs this /\ wrap_fails this f0_Hz).
Proof.
  split.
  - exists (Oscillator_new sin32 raw0 (f32 48000) (f32 440)), (f32 96000).
    split; [exists raw0, (f32 48000), (f32 440), []; reflexivity|].
    forget_table. split; [vm_compute; reflexivity|].
    unfold wrap_fails. split; [vm_compute; reflexivity|].
    split; [vm_compute; reflexivity|].
    exists 2048. split; [unfold TAB_LEN; lia | vm_compute; reflexivity].
  - exists (fst (run (renders 2)
                  (Oscillator_new sin32 raw0 (f32 48000) below_nyquist))),
      (f32 48000).
    split.
    { exists raw0, (f32 48000), below_nyquist, (renders 2).
      split; [|split; [apply frequencies_renders | reflexivity]].
      split; [reflexivity|]. split; [reflexivity|]. split; reflexivity. }
    forget_table. split; [vm_compute; reflexivity|].
    split; [vm_compute; reflexivity|].
    unfold wrap_fails. split; [vm_compute; reflexivity|].
    split; [vm_compute; reflexivity|].
    exists 2048. split; [unfold TAB_LEN; lia | vm_compute; reflexivity].
Qed.

(** C4.  [setF0] leaves the accumulator, the table, the sample rate (and
    the member [f0]) as they are, so the next [render] advances from the
    position already reached and reads the same table there: nothing is
    reset. *)
Theorem setF0_changes_only_increment (f0_Hz : float32) (this : Oscillator) :
  idx (setF0 f0_Hz this) = idx this /\
  wavetable (setF0 f0_Hz this) = wavetable this /\
  fs (setF0 f0_Hz this) = fs this /\
  f0 (setF0 f0_Hz this) = f0 this /\
  let next := wrap (F32.add (idx this) (idx_inc (setF0 f0_Hz this))) in
  idx (fst (render (setF0 f0_Hz this))) = next /\
  snd (render (setF0 f0_Hz this)) = table_read (wavetable this) (F32.to_int next).
Proof.
  repeat split.
Qed.

(** C5.  [setF0] stores [TAB_LEN * f0_Hz / fs], computed in binary32,
    whatever the argument and whatever increment was there before; a
    negative, zero, Nyquist, above-sample-rate or NaN argument goes through
    unchanged. *)
Theorem setF0_sets_increment (f0_Hz : float32) (this : Oscillator) :
  idx_inc (setF0 f0_Hz this) = F32.div (F32.mul (f32 TAB_LEN) f0_Hz) (fs this) /\
  (forall previous, setF0 f0_Hz (set_idx_inc previous this) = setF0 f0_Hz this) /\
  (* nothing is clamped: at 48 kHz, below zero, at Nyquist, at and beyond
     the sample rate, and for a NaN *)
  let at48k := set_fs (f32 48000) this in
  idx_inc (setF0 (f32 (-24000)) at48k) = f32 (-1024) /\
  idx_inc (setF0 (f32 0) at48k) = f32 0 /\
  idx_inc (setF0 (f32 24000) at48k) = f32 1024 /\
  idx_inc (setF0 (f32 48000) at48k) = f32 2048 /\
  idx_inc (setF0 (f32 96000) at48k) = f32 4096 /\
  idx_inc (setF0 S754_nan at48k) = S754_nan.
Proof.
  split; [reflexivity|]. split; [reflexivity|].
  unfold setF0. cbn [idx_inc set_idx_inc fs set_fs].
  repeat split; vm_compute; reflexivity.
Qed.

(** C6.  After construction, entry [i] of the table, for [0 <= i < TAB_LEN],
    is the library's sine of the binary32 argument [M_2PI * i / TAB_LEN];
    where that sine is within [9e-6] of the exact one, the entry is within
    [1e-5] of [sin (2 PI i / TAB_LEN)].  Neither [setF0] nor [render], nor any
    sequence of them, modifies the table. *)
Theorem wavetable_holds_one_sine_period (sin32 : float32 -> float32)
  (raw : Oscillator) (sample_rate f0_arg : float32) (i : Z) :
  0 <= i < TAB_LEN ->
  (sine_error sin32 i <= 9 / 1000000)%R ->
  let this := Oscillator_new sin32 raw sample_rate f0_arg in
  wavetable this i = sin32 (table_arg i) /\
  (Rabs (F32.to_R (wavetable this i) - sin (2 * PI * IZR i / IZR TAB_LEN))
   <= 1 / 100000)%R /\
  (forall f0_Hz that, wavetable (setF0 f0_Hz that) = wavetable that) /\
  (forall that, wavetable (fst (render that)) = wavetable that) /\
  (forall ops, wavetable (fst (run ops this)) = wavetable this).
Proof.
  intros Hi Herr this.
  assert (Hw : wavetable this i = sin32 (table_arg i)) by (apply wavetable_new; exact Hi).
  split; [exact Hw|]. split.
  - rewrite Hw. apply table_entry_error; assumption.
  - split; [reflexivity|]. split; [reflexivity|].
    intros ops. apply run_frame.
Qed.

(** C6 at entry 18, with the scenarios' sine. *)
Lemma wavetable_holds_one_sine_period_witness :
  let this := Oscillator_new sin_clip raw0 (f32 48000) (f32 440) in
  wavetable this 18 = sin_clip (table_arg 18) /\
  (Rabs (F32.to_R (wavetable this 18%Z) - sin (2 * PI * 18 / 2048))
   <= 1 / 100000)%R /\
  (forall f0_Hz that, wavetable (setF0 f0_Hz that) = wavetable that) /\
  (forall that, wavetable (fst (render that)) = wavetable that) /\
  (forall ops, wavetable (fst (run ops this)) = wavetable this).
Proof.
  apply (wavetable_holds_one_sine_period sin_clip raw0 (f32 48000) (f32 440) 18).
  - unfold TAB_LEN. lia.
  - exact sin_clip_error_18.
Defined.

(** C7.  The code does not keep this for every frequency in [(0, fs / 2)].
    With a sample rate of [2^127] Hz and a frequency of [2^120] Hz, [setF0]
    multiplies first: [TAB_LEN * f0] overflows to an infinity although the
    quotient, 16, is representable (dividing first gives it), the increment
    is infinite instead of a value in [(0, TAB_LEN)], and the first [render]
    casts an infinite accumulator: it returns no table entry, so no value
    in [[-1, 1]]. *)
Lemma overflowing_product_breaks_render :
  sub_nyquist two_127 two_120 /\
  no_overflow two_120 = false /\
  F32.mul (f32 TAB_LEN) (F32.div two_120 two_127) = f32 16 /\
  forall (sin32 : float32 -> float32) (raw : Oscillator),
    idx_inc (Oscillator_new sin32 raw two_127 two_120) = S754_infinity false /\
    snd (run [CallRender] (Oscillator_new sin32 raw two_127 two_120)) = [CastUndefined] /\
    ~ Forall unit_sample
        (snd (run [CallRender] (Oscillator_new sin32 raw two_127 two_120))).
Proof.
  split; [|split; [reflexivity|split; [reflexivity|]]].
  - split; [reflexivity|]. split; [reflexivity|]. split; reflexivity.
  - intros sin32 raw.
    assert (Hout : snd (run [CallRender] (Oscillator_new sin32 raw two_127 two_120)) =
                   [CastUndefined]).
    { forget_table. destruct raw as [rt ri rinc rf rs]. cbn [f0].
      vm_compute. reflexivity. }
    split; [reflexivity|]. split; [exact Hout|].
    rewrite Hout. intros H. inversion H as [|x l [v [Hv _]] Hl]. discriminate.
Qed.

(** C8, amended.  At 48 kHz and 440 Hz the increment is within [0.01] of
    [18.77]; the first [render] reads entry 18, the integer part of
    [0 + 18.77]; where the library's sine is within [9e-6] of the exact one,
    that entry is within [1e-5] of [sin (2 PI 18 / 2048)] and within [1e-4]
    of [0.0552]. *)
Theorem first_render_at_440_Hz (sin32 : float32 -> float32) (raw : Oscillator) :
  (sine_error sin32 18 <= 9 / 1000000)%R ->
  let this := Oscillator_new sin32 raw (f32 48000) (f32 440) in
  (Rabs (F32.to_R (idx_inc this) - 1877 / 100) <= 1 / 100)%R /\
  F32.to_int (idx (fst (render this))) = Some 18 /\
  snd (render this) = Sample (wavetable this 18) /\
  (Rabs (F32.to_R (wavetable this 18%Z) - sin (2 * PI * 18 / 2048)) <= 1 / 100000)%R /\
  (Rabs (F32.to_R (wavetable this 18%Z) - 552 / 10000) <= 1 / 10000)%R.
Proof.
  intros Herr this.
  assert (Hw : wavetable this 18 = sin32 (table_arg 18))
    by (apply wavetable_new; unfold TAB_LEN; lia).
  assert (Hinc : idx_inc this = S754_finite false 9842633 (-19))
    by (vm_compute; reflexivity).
  split.
  { rewrite Hinc. unfold F32.to_R, F32.to_Q, Q2R. simpl. apply Rabs_le. lra. }
  split; [unfold this; forget_table; vm_compute; reflexivity|].
  split; [unfold this; forget_table; vm_compute; reflexivity|].
  rewrite Hw. split.
  - exact (table_entry_error sin32 18 ltac:(unfold TAB_LEN; lia) Herr).
  - unfold sine_error in Herr. pose proof sin_table_arg_18 as [Hlo Hhi].
    apply Rabs_le. apply Rabs_le_bounds in Herr. lra.
Qed.

(** C8 with the scenarios' sine. *)
Lemma first_render_at_440_Hz_witness :
  let this := Oscillator_new sin_clip raw0 (f32 48000) (f32 440) in
  (Rabs (F32.to_R (idx_inc this) - 1877 / 100) <= 1 / 100)%R /\
  F32.to_int (idx (fst (render this))) = Some 18 /\
  snd (render this) = Sample (wavetable this 18) /\
  (Rabs (F32.to_R (wavetable this 18%Z) - sin (2 * PI * 18 / 2048)) <= 1 / 100000)%R /\
  (Rabs (F32.to_R (wavetable this 18%Z) - 552 / 10000) <= 1 / 10000)%R.
Proof.
  apply (first_render_at_440_Hz sin_clip raw0). exact sin_clip_error_18.
Defined.

(** C8 as stated fails: the first sample is entry 18, whose argument
    differs from that of entry 19, and with the scenarios' sine its value
    stays more than [0.003] below [0.0582]. *)
Lemma first_render_is_not_entry_19 :
  (forall (sin32 : float32 -> float32) (raw : Oscillator),
     snd (render (Oscillator_new sin32 raw (f32 48000) (f32 440))) =
     Sample (sin32 (table_arg 18))) /\
  table_arg 18 <> table_arg 19 /\
  (F32.to_Q (sin_clip (table_arg 18)) + (3 # 1000) < (582 # 10000))%Q.
Proof.
  split; [|split].
  - intros sin32 raw.
    assert (Hw : wavetable (Oscillator_new sin32 raw (f32 48000) (f32 440)) 18 =
                 sin32 (table_arg 18)) by (apply wavetable_new; unfold TAB_LEN; lia).
    rewrite <- Hw. forget_table. vm_compute. reflexivity.
  - vm_compute. discriminate.
  - vm_compute. reflexivity.
Qed.

(** C9.  At 48 kHz and 24 kHz the increment is exactly 1024 and the
    successive calls of [render] return entry 1024, entry 0, entry 1024, ...
    of the table. *)
Theorem nyquist_two_point_cycle (sin32 : float32 -> float32) (raw : Oscillator)
  (n : nat) :
  let this := Oscillator_new sin32 raw (f32 48000) (f32 24000) in
  idx_inc this = f32 1024 /\
  snd (run (renders n) this) = alternating this 1024 0 n /\
  wavetable this 1024 = sin32 (table_arg 1024) /\
  wavetable this 0 = sin32 (table_arg 0).
Proof.
  intros this.
  split; [vm_compute; reflexivity|].
  split; [|split; apply wavetable_new; unfold TAB_LEN; lia].
  assert (Hinv : idx (fst (run (renders n) this)) =
                   (if Nat.even n then f32 0 else f32 1024) /\
                 snd (run (renders n) this) = alternating this 1024 0 n).
  { induction n as [|n [IHi IHo]].
    - split; reflexivity.
    - rewrite renders_S, run_app. cbn [fst snd].
      destruct (run_frame (renders n) this) as [Hw [Hfs Hf0]].
      set (s := fst (run (renders n) this)) in *.
      assert (Hinc : idx_inc s = f32 1024).
      { unfold s. rewrite render_frame_idx_inc. vm_compute. reflexivity. }
      assert (Hrun1 : run [CallRender] s =
                      (fst (render s), [snd (render s)])).
      { simpl. destruct (render s); reflexivity. }
      rewrite Hrun1. cbn [fst snd].
      assert (Hidx' : idx (fst (render s)) = wrap (F32.add (idx s) (idx_inc s)))
        by reflexivity.
      assert (Hout' : snd (render s) =
                      table_read (wavetable s) (F32.to_int (idx (fst (render s)))))
        by reflexivity.
      rewrite Hout', Hidx', IHi, Hinc, Hw, IHo.
      unfold alternating. rewrite seq_S, map_app. cbn [map Nat.add].
      rewrite Nat.even_succ, <- Nat.negb_even.
      generalize (wavetable this). intros t.
      destruct (Nat.even n); cbn [negb]; split; try (vm_compute; reflexivity);
        f_equal. }
  exact (proj2 Hinv).
Qed.

(** C10.  The constructor assigns [fs], [idx], the table and [idx_inc];
    the member [f0] keeps what the storage held, [setF0] and [render] do
    not touch it, and so it is still unassigned after any sequence of
    calls. *)
Theorem f0_member_never_written (sin32 : float32 -> float32) (raw : Oscillator)
  (sample_rate f0_arg : float32) (ops : list op) :
  let this := Oscillator_new sin32 raw sample_rate f0_arg in
  fs this = sample_rate /\ idx this = f32 0 /\
  idx_inc this = F32.div (F32.mul (f32 TAB_LEN) f0_arg) sample_rate /\
  f0 this = f0 raw /\
  (forall f0_Hz that, f0 (setF0 f0_Hz that) = f0 that) /\
  (forall that, f0 (fst (render that)) = f0 that) /\
  f0 (fst (run ops this)) = f0 raw.
Proof.
  intros this. repeat split.
  destruct (run_frame ops this) as [_ [_ H]]. rewrite H. reflexivity.
Qed.

(** * Beyond the accumulator's range *)

(** ** More on rounding *)

(** The three shapes of a rounded number. *)
Lemma rounded_shape (s : bool) (m2 E : Z) :
  0 <= m2 <= 2 ^ 24 ->
  (m2 = 0 /\ rounded s m2 E = S754_zero s) \/
  (0 < m2 /\ rounded s m2 E = S754_infinity s) \/
  (exists m e, rounded s m2 E = S754_finite s m e /\
               ((e = E /\ Zpos m = m2 /\ m2 < 2 ^ 24) \/
                (e = E + 1 /\ m = 8388608%positive /\ m2 = 2 ^ 24))).
Proof.
  intros Hm. unfold rounded.
  destruct (Z.eqb_spec m2 0); [left; split; [assumption|reflexivity]|right].
  destruct (Z.ltb_spec m2 (2 ^ 24)).
  - destruct (Z.leb_spec E 104); [right|left; split; [lia|reflexivity]].
    eexists _, _. split; [reflexivity|]. left.
    rewrite Z2Pos.id by lia. repeat split; lia.
  - destruct (Z.leb_spec (E + 1) 104); [right|left; split; [lia|reflexivity]].
    eexists _, _. split; [reflexivity|]. right. repeat split; lia.
Qed.

(** The value of a rounded number that did not overflow. *)
Lemma to_Q_rounded (s : bool) (m2 E : Z) :
  0 <= m2 <= 2 ^ 24 -> F32.is_finite (rounded s m2 E) = true ->
  (F32.to_Q (rounded s m2 E) == inject_Z (cond_Zopp s m2) * Qpower 2 E)%Q.
Proof.
  intros Hm Hfin.
  destruct (rounded_shape s m2 E Hm) as [[Hz Hr]|[[_ Hr]|[m [e [Hr Hc]]]]];
    rewrite Hr in *; try discriminate.
  - subst m2. simpl. destruct s; simpl; ring.
  - unfold F32.to_Q. destruct Hc as [[-> [Hmm _]]|[-> [-> ->]]].
    + rewrite Hmm. reflexivity.
    + rewrite Qpower_2_plus.
      assert (H : (inject_Z (cond_Zopp s (2 ^ 24)) ==
                   inject_Z (cond_Zopp s (Zpos 8388608)) * Qpower 2 1)%Q)
        by (destruct s; reflexivity).
      rewrite H. ring.
Qed.

(** The sum of two numbers of the same sign is their exact sum, rounded. *)
Lemma add_finite_same_sign (s : bool) (mx my : positive) (ex ey : Z) :
  exists M : positive,
    Zpos M = Zpos mx * 2 ^ (ex - Z.min ex ey) + Zpos my * 2 ^ (ey - Z.min ex ey) /\
    SFadd 24 128 (S754_finite s mx ex) (S754_finite s my ey) =
    binary_round 24 128 s M (Z.min ex ey).
Proof.
  unfold SFadd.
  pose proof (shl_align_spec mx ex (Z.min ex ey)) as [Hx _].
  pose proof (shl_align_spec my ey (Z.min ex ey)) as [Hy _].
  rewrite (Z.min_r ex (Z.min ex ey)) in Hx by lia.
  rewrite (Z.min_r ey (Z.min ex ey)) in Hy by lia.
  exists (fst (shl_align mx ex (Z.min ex ey)) + fst (shl_align my ey (Z.min ex ey)))%positive.
  split; [rewrite Pos2Z.inj_add, Hx, Hy; reflexivity|].
  destruct s; reflexivity.
Qed.

(** It is an infinity of that sign, or a number of that sign whose
    exponent is at least those of the operands. *)
Lemma add_same_sign_grows (s : bool) (mx my : positive) (ex ey : Z) :
  bounded 24 128 mx ex = true -> bounded 24 128 my ey = true ->
  SFadd 24 128 (S754_finite s mx ex) (S754_finite s my ey) = S754_infinity s \/
  exists m e,
    SFadd 24 128 (S754_finite s mx ex) (S754_finite s my ey) = S754_finite s m e /\
    bounded 24 128 m e = true /\ ex <= e /\ ey <= e.
Proof.
  intros Hbx Hby.
  destruct (add_finite_same_sign s mx my ex ey) as [M [HM ->]].
  set (ez := Z.min ex ey) in *.
  apply bounded_spec in Hbx as [Hcx _]. apply bounded_spec in Hby as [Hcy _].
  assert (Hax : 0 < 2 ^ (ex - ez)) by (apply Z.pow_pos_nonneg; unfold ez; lia).
  assert (Hay : 0 < 2 ^ (ey - ez)) by (apply Z.pow_pos_nonneg; unfold ez; lia).
  (* the sum has at least the digits of each operand *)
  assert (Hdx : Zdigits2 (Zpos mx) + ex <= Zdigits2 (Zpos M) + ez).
  { assert (H : Zdigits2 (Zpos mx * 2 ^ (ex - ez)) <= Zdigits2 (Zpos M))
      by (apply Zdigits2_le; nia).
    rewrite Zdigits2_mul_pow in H by (unfold ez; lia). lia. }
  assert (Hdy : Zdigits2 (Zpos my) + ey <= Zdigits2 (Zpos M) + ez).
  { assert (H : Zdigits2 (Zpos my * 2 ^ (ey - ez)) <= Zdigits2 (Zpos M))
      by (apply Zdigits2_le; nia).
    rewrite Zdigits2_mul_pow in H by (unfold ez; lia). lia. }
  pose proof (fexp32_le _ _ Hdx) as Hfx. pose proof (fexp32_le _ _ Hdy) as Hfy.
  rewrite Hcx in Hfx. rewrite Hcy in Hfy.
  destruct (binary_round_spec s M ez) as [m2 [Hm2 [Hexact [Hshift [_ [-> Hv]]]]]].
  set (E := fexp32 (Zdigits2 (Zpos M) + ez)) in *.
  assert (Hpos : 0 < m2).
  { destruct (Z.le_ge_cases E ez) as [Hle|Hge].
    - rewrite Hexact by assumption.
      assert (0 < 2 ^ (ez - E)) by (apply Z.pow_pos_nonneg; lia). nia.
    - specialize (Hshift Hge).
      assert (1 <= Zpos M / 2 ^ (E - ez)); [|lia].
      apply Z.div_le_lower_bound; [apply Z.pow_pos_nonneg; lia|].
      pose proof (Zdigits2_bounds (Zpos M) ltac:(lia)) as [Hlo _].
      pose proof (Zdigits2_pos (Zpos mx) ltac:(lia)).
      assert (E - ez <= Zdigits2 (Zpos M) - 1).
      { unfold E. rewrite fexp32_eq. rewrite fexp32_eq in Hcx. lia. }
      assert (2 ^ (E - ez) <= 2 ^ (Zdigits2 (Zpos M) - 1))
        by (apply Z.pow_le_mono_r; lia).
      lia. }
  destruct (rounded_shape s m2 E Hm2) as [[Hz _]|[[_ Hr]|[m [e [Hr Hc]]]]].
  - lia.
  - left. exact Hr.
  - right. rewrite Hr in *. exists m, e. split; [reflexivity|].
    split; [exact Hv|]. destruct Hc as [[-> _]|[-> _]]; lia.
Qed.

(** The difference of two positive numbers is their exact difference,
    rounded. *)
Lemma sub_finite_gen (mx my : positive) (ex ey : Z) :
  SFsub 24 128 (S754_finite false mx ex) (S754_finite false my ey) =
  binary_normalize 24 128
    (Zpos mx * 2 ^ (ex - Z.min ex ey) - Zpos my * 2 ^ (ey - Z.min ex ey))
    (Z.min ex ey) false.
Proof.
  unfold SFsub, cond_Zopp.
  pose proof (shl_align_spec mx ex (Z.min ex ey)) as [Hx _].
  pose proof (shl_align_spec my ey (Z.min ex ey)) as [Hy _].
  rewrite (Z.min_r ex (Z.min ex ey)) in Hx by lia.
  rewrite (Z.min_r ey (Z.min ex ey)) in Hy by lia.
  rewrite Hx, Hy. reflexivity.
Qed.

(** A positive integer at an exponent, rounded: an infinity, or a number
    stored with the exponent of its magnitude or the next. *)
Lemma binary_round_grows (s : bool) (M : positive) (e : Z) :
  -148 <= Zdigits2 (Zpos M) + e ->
  binary_round 24 128 s M e = S754_infinity s \/
  exists m e',
    binary_round 24 128 s M e = S754_finite s m e' /\
    bounded 24 128 m e' = true /\ fexp32 (Zdigits2 (Zpos M) + e) <= e'.
Proof.
  intros Hd.
  destruct (binary_round_spec s M e) as [m2 [Hm2 [Hexact [Hshift [_ [-> Hv]]]]]].
  set (E := fexp32 (Zdigits2 (Zpos M) + e)) in *.
  assert (Hpos : 0 < m2).
  { destruct (Z.le_ge_cases E e) as [Hle|Hge].
    - rewrite Hexact by assumption.
      assert (0 < 2 ^ (e - E)) by (apply Z.pow_pos_nonneg; lia). nia.
    - specialize (Hshift Hge).
      assert (1 <= Zpos M / 2 ^ (E - e)); [|lia].
      apply Z.div_le_lower_bound; [apply Z.pow_pos_nonneg; lia|].
      pose proof (Zdigits2_bounds (Zpos M) ltac:(lia)) as [Hlo _].
      assert (E - e <= Zdigits2 (Zpos M) - 1)
        by (unfold E; rewrite fexp32_eq; lia).
      assert (2 ^ (E - e) <= 2 ^ (Zdigits2 (Zpos M) - 1))
        by (apply Z.pow_le_mono_r; lia).
      lia. }
  destruct (rounded_shape s m2 E Hm2) as [[Hz _]|[[_ Hr]|[m [e' [Hr Hc]]]]].
  - lia.
  - left. exact Hr.
  - right. rewrite Hr in *. exists m, e'. split; [reflexivity|].
    split; [exact Hv|]. destruct Hc as [[-> _]|[-> _]]; lia.
Qed.

(** ** Values beyond a power of two *)

Lemma at_least_pow2_inv (eb : Z) (x : float32) :
  -149 < eb ->
  at_least (S754_finite false 8388608 eb) x = true ->
  x = S754_infinity false \/
  exists m e, x = S754_finite false m e /\ bounded 24 128 m e = true /\ eb <= e.
Proof.
  intros Heb. unfold at_least, F32.valid, F32.geb, F32.prec, F32.emax, SFleb.
  rewrite andb_true_iff. intros [Hv Hc].
  destruct x as [s|[|]| |[|] m e]; try discriminate.
  - left; reflexivity.
  - right. exists m, e. split; [reflexivity|]. split; [exact Hv|].
    unfold SFcompare in Hc.
    destruct (Z.compare_spec eb e); try discriminate; lia.
Qed.

Lemma at_least_pow2_finite (eb : Z) (m : positive) (e : Z) :
  -149 < eb -> bounded 24 128 m e = true -> eb <= e ->
  at_least (S754_finite false 8388608 eb) (S754_finite false m e) = true.
Proof.
  intros Heb Hb He. unfold at_least, F32.valid, F32.geb, F32.prec, F32.emax, SFleb.
  simpl valid_binary. rewrite Hb, andb_true_l.
  pose proof (bounded_digits m e Hb) as [_ [_ Hlo]].
  unfold SFcompare. destruct (Z.compare_spec eb e) as [Heq|Hlt|Hgt]; try reflexivity.
  - subst e. specialize (Hlo Heb). rewrite compare_cont_Eq, Pos2Z.inj_compare.
    destruct (Z.compare_spec (Zpos 8388608) (Zpos m)); try reflexivity. lia.
  - lia.
Qed.

Lemma at_least_zero_inv (x : float32) :
  at_least (f32 0) x = true ->
  (exists s, x = S754_zero s) \/ x = S754_infinity false \/
  exists m e, x = S754_finite false m e /\ bounded 24 128 m e = true.
Proof.
  unfold at_least, F32.valid, F32.geb, F32.prec, F32.emax, SFleb.
  rewrite f32_0, andb_true_iff. intros [Hv Hc].
  destruct x as [s|[|]| |[|] m e]; try discriminate.
  - left; eexists; reflexivity.
  - right; left; reflexivity.
  - right; right. exists m, e. split; [reflexivity|exact Hv].
Qed.

Lemma f32_4096 : f32 4096 = S754_finite false 8388608 (-11).
Proof. reflexivity. Qed.

(** A value of at least [TAB_LEN] is at least 0 too. *)
Lemma at_least_TAB_LEN_zero (x : float32) :
  at_least (f32 TAB_LEN) x = true -> at_least (f32 0) x = true.
Proof.
  rewrite f32_TAB_LEN. intros H.
  destruct (at_least_pow2_inv (-12) x ltac:(lia) H) as [->|[m [e [-> [Hb He]]]]].
  - reflexivity.
  - unfold at_least, F32.valid, F32.prec, F32.emax. simpl valid_binary.
    rewrite Hb. reflexivity.
Qed.

(** Adding an increment of at least [2 * TAB_LEN] to a nonnegative
    accumulator gives at least [2 * TAB_LEN]. *)
Lemma add_at_least (x y : float32) :
  at_least (f32 0) x = true -> at_least (f32 4096) y = true ->
  at_least (f32 4096) (F32.add x y) = true.
Proof.
  intros Hx Hy. rewrite f32_4096 in *.
  unfold F32.add, F32.prec, F32.emax.
  destruct (at_least_pow2_inv (-11) y ltac:(lia) Hy) as [->|[my [ey [-> [Hby Hey]]]]];
  destruct (at_least_zero_inv x Hx) as [[s ->]|[->|[mx [ex [-> Hbx]]]]];
    try reflexivity.
  - simpl. exact Hy.
  - destruct (add_same_sign_grows false mx my ex ey Hbx Hby)
      as [->|[m [e [-> [Hb [_ He]]]]]]; [reflexivity|].
    apply at_least_pow2_finite; lia || assumption.
Qed.

(** One subtraction of [TAB_LEN] from at least [2 * TAB_LEN] leaves at
    least [TAB_LEN]. *)
Lemma wrap_at_least (x : float32) :
  at_least (f32 4096) x = true -> at_least (f32 TAB_LEN) (wrap x) = true.
Proof.
  intros Hx. rewrite f32_4096 in Hx.
  destruct (at_least_pow2_inv (-11) x ltac:(lia) Hx) as [->|[m [e [-> [Hb He]]]]].
  - reflexivity.
  - unfold wrap, F32.geb. fold (f32 TAB_LEN).
    rewrite (geb_TAB_LEN_finite m e Hb).
    destruct (Z.leb_spec (-12) e); [|lia].
    unfold F32.sub, F32.prec, F32.emax. rewrite f32_TAB_LEN.
    rewrite sub_finite_gen. rewrite Z.min_r by lia.
    replace (-12 - -12) with 0 by lia. rewrite Z.pow_0_r, Z.mul_1_r.
    pose proof (bounded_digits m e Hb) as [_ [_ Hlo]]. specialize (Hlo ltac:(lia)).
    assert (H2 : 2 <= 2 ^ (e - -12)).
    { change 2 with (2 ^ 1) at 1. apply Z.pow_le_mono_r; lia. }
    set (P := 2 ^ (e - -12)) in *.
    assert (HM : 2 ^ 23 <= Zpos m * P - Zpos 8388608) by nia.
    destruct (Zpos m * P - Zpos 8388608) as [|M|M] eqn:HMe; try lia.
    unfold binary_normalize.
    assert (Hd : 24 <= Zdigits2 (Zpos M)).
    { destruct (Z.leb_spec 24 (Zdigits2 (Zpos M))); [assumption|exfalso].
      pose proof (Zdigits2_bounds (Zpos M) ltac:(lia)) as [_ Hhi].
      assert (2 ^ Zdigits2 (Zpos M) <= 2 ^ 23) by (apply Z.pow_le_mono_r; lia).
      lia. }
    destruct (binary_round_grows false M (-12) ltac:(lia))
      as [->|[m' [e' [-> [Hb' He']]]]]; [reflexivity|].
    rewrite fexp32_eq in He'.
    apply at_least_pow2_finite; try assumption; lia.
Qed.

(** The cast of a value of at least [TAB_LEN] gives no index of the
    table. *)
Lemma read_at_least (t : table) (x : float32) :
  at_least (f32 TAB_LEN) x = true -> read_past_end (table_read t (F32.to_int x)).
Proof.
  rewrite f32_TAB_LEN. intros H.
  destruct (at_least_pow2_inv (-12) x ltac:(lia) H) as [->|[m [e [-> [Hb He]]]]].
  - right. reflexivity.
  - pose proof (bounded_digits m e Hb) as [_ [_ Hlo]]. specialize (Hlo ltac:(lia)).
    assert (Hz : 2048 <= Z.shiftl (Zpos m) e).
    { destruct (Z.leb_spec 0 e).
      - rewrite Z.shiftl_mul_pow2 by assumption.
        assert (0 < 2 ^ e) by (apply Z.pow_pos_nonneg; lia).
        change (2 ^ 23) with 8388608 in Hlo. nia.
      - rewrite Z.shiftl_div_pow2 by lia.
        apply Z.div_le_lower_bound; [apply Z.pow_pos_nonneg; lia|].
        assert (2 ^ (- e) <= 2 ^ 12) by (apply Z.pow_le_mono_r; lia).
        change (2 ^ 23) with 8388608 in Hlo. change (2 ^ 12) with 4096 in *. lia. }
    unfold F32.to_int, F32.trunc, cond_Zopp.
    destruct ((F32.INT_MIN <=? Z.shiftl (Zpos m) e) &&
              (Z.shiftl (Zpos m) e <=? F32.INT_MAX)).
    + left. exists (Z.shiftl (Zpos m) e). split; [unfold TAB_LEN; lia|].
      unfold table_read.
      destruct (Z.ltb_spec (Z.shiftl (Zpos m) e) TAB_LEN);
        [unfold TAB_LEN in *; lia|].
      rewrite andb_false_r. reflexivity.
    + right. reflexivity.
Qed.

Lemma render_at_least (this : Oscillator) :
  at_least (f32 0) (idx this) = true -> at_least (f32 4096) (idx_inc this) = true ->
  at_least (f32 TAB_LEN) (idx (fst (render this))) = true /\
  read_past_end (snd (render this)).
Proof.
  intros Hi Hinc.
  assert (H : at_least (f32 TAB_LEN) (advance this) = true)
    by (apply wrap_at_least, add_at_least; assumption).
  split; [exact H|]. apply (read_at_least (wavetable this)). exact H.
Qed.

Lemma renders_at_least (n : nat) :
  forall this : Oscillator,
    at_least (f32 0) (idx this) = true ->
    at_least (f32 4096) (idx_inc this) = true ->
    Forall read_past_end (snd (run (renders n) this)).
Proof.
  induction n as [|n IH]; intros this Hi Hinc; [constructor|].
  change (renders (S n)) with (CallRender :: renders n).
  rewrite run_cons.
  destruct (render_at_least this Hi Hinc) as [H1 H2].
  unfold call. rewrite (surjective_pairing (render this)). cbn [fst snd].
  constructor; [exact H2|]. apply IH.
  - apply at_least_TAB_LEN_zero. exact H1.
  - exact Hinc.
Qed.

(** ** Values below minus one *)

Lemma f32_minus_1 : f32 (-1) = S754_finite true 8388608 (-23).
Proof. reflexivity. Qed.

Lemma at_most_minus_1_inv (x : float32) :
  at_most (f32 (-1)) x = true ->
  x = S754_infinity true \/
  exists m e, x = S754_finite true m e /\ bounded 24 128 m e = true /\ -23 <= e.
Proof.
  unfold at_most, F32.valid, F32.leb, F32.prec, F32.emax, SFleb.
  rewrite f32_minus_1, andb_true_iff. intros [Hv Hc].
  destruct x as [s|[|]| |[|] m e]; try discriminate.
  - left; reflexivity.
  - right. exists m, e. split; [reflexivity|]. split; [exact Hv|].
    unfold SFcompare in Hc.
    destruct (Z.compare_spec e (-23)); try discriminate; lia.
Qed.

Lemma at_most_minus_1_finite (m : positive) (e : Z) :
  bounded 24 128 m e = true -> -23 <= e ->
  at_most (f32 (-1)) (S754_finite true m e) = true.
Proof.
  intros Hb He. unfold at_most, F32.valid, F32.leb, F32.prec, F32.emax, SFleb.
  rewrite f32_minus_1. simpl valid_binary. rewrite Hb, andb_true_l.
  pose proof (bounded_digits m e Hb) as [_ [_ Hlo]].
  unfold SFcompare. destruct (Z.compare_spec e (-23)) as [Heq|Hlt|Hgt]; try reflexivity.
  - subst e. specialize (Hlo ltac:(lia)). rewrite compare_cont_Eq, Pos2Z.inj_compare.
    destruct (Z.compare_spec (Zpos m) (Zpos 8388608)); try reflexivity. lia.
  - lia.
Qed.

Lemma at_most_zero_inv (x : float32) :
  at_most (f32 0) x = true ->
  (exists s, x = S754_zero s) \/ x = S754_infinity true \/
  exists m e, x = S754_finite true m e /\ bounded 24 128 m e = true.
Proof.
  unfold at_most, F32.valid, F32.leb, F32.prec, F32.emax, SFleb.
  rewrite f32_0, andb_true_iff. intros [Hv Hc].
  destruct x as [s|[|]| |[|] m e]; try discriminate.
  - left; eexists; reflexivity.
  - right; left; reflexivity.
  - right; right. exists m, e. split; [reflexivity|exact Hv].
Qed.

Lemma at_most_minus_1_zero (x : float32) :
  at_most (f32 (-1)) x = true -> at_most (f32 0) x = true.
Proof.
  intros H. destruct (at_most_minus_1_inv x H) as [->|[m [e [-> [Hb He]]]]].
  - reflexivity.
  - unfold at_most, F32.valid, F32.prec, F32.emax. simpl valid_binary.
    rewrite Hb. reflexivity.
Qed.

(** A nonpositive accumulator and an increment of at most -1 add up to at
    most -1. *)
Lemma add_at_most (x y : float32) :
  at_most (f32 0) x = true -> at_most (f32 (-1)) y = true ->
  at_most (f32 (-1)) (F32.add x y) = true.
Proof.
  intros Hx Hy. unfold F32.add, F32.prec, F32.emax.
  destruct (at_most_minus_1_inv y Hy) as [->|[my [ey [-> [Hby Hey]]]]];
  destruct (at_most_zero_inv x Hx) as [[s ->]|[->|[mx [ex [-> Hbx]]]]];
    try reflexivity.
  - simpl. exact Hy.
  - destruct (add_same_sign_grows true mx my ex ey Hbx Hby)
      as [->|[m [e [-> [Hb [_ He]]]]]]; [reflexivity|].
    apply at_most_minus_1_finite; lia || assumption.
Qed.

(** Such a value is not wrapped. *)
Lemma wrap_at_most (x : float32) :
  at_most (f32 (-1)) x = true -> wrap x = x.
Proof.
  intros H. unfold wrap.
  destruct (at_most_minus_1_inv x H) as [->|[m [e [-> _]]]]; reflexivity.
Qed.

(** Its cast gives no index of the table. *)
Lemma read_at_most (t : table) (x : float32) :
  at_most (f32 (-1)) x = true -> read_before_start (table_read t (F32.to_int x)).
Proof.
  intros H. destruct (at_most_minus_1_inv x H) as [->|[m [e [-> [Hb He]]]]].
  - right. reflexivity.
  - pose proof (bounded_digits m e Hb) as [_ [_ Hlo]]. specialize (Hlo ltac:(lia)).
    assert (Hz : 1 <= Z.shiftl (Zpos m) e).
    { destruct (Z.leb_spec 0 e).
      - rewrite Z.shiftl_mul_pow2 by assumption.
        assert (0 < 2 ^ e) by (apply Z.pow_pos_nonneg; lia).
        change (2 ^ 23) with 8388608 in Hlo. nia.
      - rewrite Z.shiftl_div_pow2 by lia.
        apply Z.div_le_lower_bound; [apply Z.pow_pos_nonneg; lia|].
        assert (2 ^ (- e) <= 2 ^ 23) by (apply Z.pow_le_mono_r; lia).
        lia. }
    unfold F32.to_int, F32.trunc, cond_Zopp.
    destruct ((F32.INT_MIN <=? - Z.shiftl (Zpos m) e) &&
              (- Z.shiftl (Zpos m) e <=? F32.INT_MAX)).
    + left. exists (- Z.shiftl (Zpos m) e). split; [lia|].
      unfold table_read.
      destruct (Z.leb_spec 0 (- Z.shiftl (Zpos m) e)); [lia|]. reflexivity.
    + right. reflexivity.
Qed.

Lemma render_at_most (this : Oscillator) :
  at_most (f32 0) (idx this) = true -> at_most (f32 (-1)) (idx_inc this) = true ->
  idx (fst (render this)) = F32.add (idx this) (idx_inc this) /\
  at_most (f32 (-1)) (idx (fst (render this))) = true /\
  read_before_start (snd (render this)).
Proof.
  intros Hi Hinc.
  pose proof (add_at_most _ _ Hi Hinc) as Hs.
  assert (Ha : advance this = F32.add (idx this) (idx_inc this))
    by (apply wrap_at_most; exact Hs).
  assert (Hidx : idx (fst (render this)) = advance this) by reflexivity.
  rewrite Hidx, Ha. split; [reflexivity|]. split; [exact Hs|].
  assert (Hout : snd (render this) =
                 table_read (wavetable this) (F32.to_int (advance this)))
    by reflexivity.
  rewrite Hout, Ha. apply read_at_most. exact Hs.
Qed.

Lemma renders_at_most (n : nat) :
  forall this : Oscillator,
    at_most (f32 0) (idx this) = true ->
    at_most (f32 (-1)) (idx_inc this) = true ->
    Forall read_before_start (snd (run (renders n) this)).
Proof.
  induction n as [|n IH]; intros this Hi Hinc; [constructor|].
  change (renders (S n)) with (CallRender :: renders n).
  rewrite run_cons.
  destruct (render_at_most this Hi Hinc) as [_ [H1 H2]].
  unfold call. rewrite (surjective_pairing (render this)). cbn [fst snd].
  constructor; [exact H2|]. apply IH.
  - apply at_most_minus_1_zero. exact H1.
  - exact Hinc.
Qed.

(** ** Accumulators that are not numbers *)

Lemma add_not_finite_l (x y : float32) :
  not_finite x = true -> not_finite (F32.add x y) = true.
Proof. destruct x as [s|[|]| |s m e]; try discriminate; destruct y as [s'|[|]| |s' m' e']; reflexivity. Qed.

Lemma add_not_finite_r (x y : float32) :
  not_finite y = true -> not_finite (F32.add x y) = true.
Proof. destruct y as [s|[|]| |s m e]; try discriminate; destruct x as [s'|[|]| |s' m' e']; reflexivity. Qed.

Lemma wrap_not_finite (x : float32) :
  not_finite x = true -> not_finite (wrap x) = true.
Proof. destruct x as [s|[|]| |s m e]; try discriminate; reflexivity. Qed.

Lemma to_int_not_finite (x : float32) :
  not_finite x = true -> F32.to_int x = None.
Proof. destruct x as [s|[|]| |s m e]; try discriminate; reflexivity. Qed.

Lemma add_nan_l (y : float32) : F32.add S754_nan y = S754_nan.
Proof. reflexivity. Qed.

Lemma add_nan_r (x : float32) : F32.add x S754_nan = S754_nan.
Proof. destruct x as [s|[|]| |s m e]; reflexivity. Qed.

(** One [render] with an accumulator or an increment that is not finite. *)
Lemma render_not_finite (this : Oscillator) :
  not_finite (idx this) = true \/ not_finite (idx_inc this) = true ->
  not_finite (idx (fst (render this))) = true /\ snd (render this) = CastUndefined.
Proof.
  intros H.
  assert (Ha : not_finite (advance this) = true).
  { unfold advance. apply wrap_not_finite.
    destruct H; [apply add_not_finite_l | apply add_not_finite_r]; assumption. }
  split; [exact Ha|].
  assert (Hout : snd (render this) =
                 table_read (wavetable this) (F32.to_int (advance this)))
    by reflexivity.
  rewrite Hout, (to_int_not_finite _ Ha). reflexivity.
Qed.

(** A NaN accumulator stays one through any sequence of calls. *)
Lemma run_nan (ops : list op) :
  forall this : Oscillator,
    idx this = S754_nan ->
    idx (fst (run ops this)) = S754_nan /\ all_undefined (snd (run ops this)).
Proof.
  induction ops as [|o ops IH]; intros this Hnan.
  - split; [exact Hnan|constructor].
  - rewrite run_cons. cbn [fst snd]. destruct o as [f|].
    + cbn [call fst snd app]. apply IH. exact Hnan.
    + assert (Hstep : idx (fst (render this)) = S754_nan /\
                      snd (render this) = CastUndefined).
      { assert (Hidx : idx (fst (render this)) = wrap (F32.add (idx this) (idx_inc this)))
          by reflexivity.
        assert (Hout : snd (render this) =
                       table_read (wavetable this) (F32.to_int (idx (fst (render this)))))
          by reflexivity.
        rewrite Hout, Hidx, Hnan, add_nan_l. split; reflexivity. }
      destruct Hstep as [H1 H2].
      unfold call. rewrite (surjective_pairing (render this)). cbn [fst snd].
      destruct (IH (fst (render this)) H1) as [G1 G2].
      split; [exact G1|]. constructor; [exact H2|exact G2].
Qed.

(** ** Sample rates that cannot be divided by *)

Lemma div_degenerate (x r : float32) :
  degenerate_rate r = true -> not_finite (F32.div x r) = true.
Proof.
  destruct r as [s|[|]| |s m e]; try discriminate; intros _;
    destruct x as [s'|[|]| |s' m' e']; reflexivity.
Qed.

Lemma run_degenerate (ops : list op) :
  forall this : Oscillator,
    degenerate_rate (fs this) = true ->
    not_finite (idx this) = true \/ not_finite (idx_inc this) = true ->
    all_undefined (snd (run ops this)).
Proof.
  induction ops as [|o ops IH]; intros this Hfs H; [constructor|].
  rewrite run_cons. destruct o as [f|].
  - cbn [call fst snd app]. apply IH; [exact Hfs|].
    right. unfold setF0. cbn [idx_inc set_idx_inc]. apply div_degenerate. exact Hfs.
  - destruct (render_not_finite this H) as [H1 H2].
    unfold call. rewrite (surjective_pairing (render this)). cbn [fst snd app].
    constructor; [exact H2|]. apply IH; [exact Hfs|left; exact H1].
Qed.

(** ** A zero frequency *)

Lemma setF0_zero (s : bool) (this : Oscillator) :
  degenerate_rate (fs this) = false ->
  is_zero (idx_inc (setF0 (S754_zero s) this)) = true.
Proof.
  unfold setF0. cbn [idx_inc set_idx_inc].
  destruct (fs this) as [s'|[|]| |s' m e]; try discriminate; intros _;
    destruct s; reflexivity.
Qed.

Lemma render_frozen (this : Oscillator) :
  is_zero (idx this) = true -> is_zero (idx_inc this) = true ->
  is_zero (idx (fst (render this))) = true /\
  snd (render this) = Sample (wavetable this 0).
Proof.
  intros Hi Hinc.
  assert (Hidx : idx (fst (render this)) = wrap (F32.add (idx this) (idx_inc this)))
    by reflexivity.
  assert (Hout : snd (render this) =
                 table_read (wavetable this) (F32.to_int (idx (fst (render this)))))
    by reflexivity.
  rewrite Hout, Hidx.
  destruct (idx this) as [s|s| |s m e]; try discriminate.
  destruct (idx_inc this) as [s'|s'| |s' m' e']; try discriminate.
  destruct s, s'; split; reflexivity.
Qed.

Lemma renders_frozen (n : nat) :
  forall this : Oscillator,
    is_zero (idx this) = true -> is_zero (idx_inc this) = true ->
    is_zero (idx (fst (run (renders n) this))) = true /\
    snd (run (renders n) this) = repeat (Sample (wavetable this 0)) n.
Proof.
  induction n as [|n IH]; intros this Hi Hinc; [split; [exact Hi|reflexivity]|].
  change (renders (S n)) with (CallRender :: renders n).
  rewrite run_cons.
  destruct (render_frozen this Hi Hinc) as [H1 H2].
  unfold call. rewrite (surjective_pairing (render this)). cbn [fst snd].
  destruct (IH (fst (render this)) H1 Hinc) as [G1 G2].
  split; [exact G1|]. rewrite H2, G2. reflexivity.
Qed.

(** ** Integers in binary32 *)

(** An integer [n] below [2^24], held as [M * 2^e], rounds to itself:
    24 digits at exponent [digits n - 24]. *)
Lemma binary_round_int (s : bool) (M : positive) (e n : Z) :
  0 < n < 2 ^ 24 -> e <= 0 -> Zpos M = n * 2 ^ (- e) ->
  binary_round 24 128 s M e =
  S754_finite s (Z.to_pos (n * 2 ^ (24 - Zdigits2 n))) (Zdigits2 n - 24).
Proof.
  intros Hn He HM.
  pose proof (Zdigits2_pos n ltac:(lia)) as Hd1.
  pose proof (Zdigits2_lt_pow n 24 ltac:(lia) ltac:(lia)) as Hd24.
  pose proof (Zdigits2_bounds n ltac:(lia)) as [Hlo Hhi].
  assert (HD : Zdigits2 (Zpos M) + e = Zdigits2 n).
  { rewrite HM, Zdigits2_mul_pow by lia. lia. }
  destruct (binary_round_spec s M e) as [m2 [Hm2 [Hexact [_ [Hmod [-> _]]]]]].
  rewrite HD in *. rewrite fexp32_eq in *.
  replace (Z.max (Zdigits2 n - 24) (-149)) with (Zdigits2 n - 24) in * by lia.
  set (E := Zdigits2 n - 24) in *.
  assert (Hp : 0 < 2 ^ (24 - Zdigits2 n)) by (apply Z.pow_pos_nonneg; lia).
  assert (Hv : m2 = n * 2 ^ (24 - Zdigits2 n)).
  { destruct (Z.le_ge_cases E e) as [Hle|Hge].
    - rewrite Hexact, HM by assumption.
      rewrite <- Z.mul_assoc, <- Z.pow_add_r by lia. do 2 f_equal. unfold E. lia.
    - assert (Hsplit : Zpos M = n * 2 ^ (24 - Zdigits2 n) * 2 ^ (E - e)).
      { rewrite HM, <- Z.mul_assoc, <- Z.pow_add_r by lia.
        do 2 f_equal. unfold E. lia. }
      assert (0 < 2 ^ (E - e)) by (apply Z.pow_pos_nonneg; lia).
      rewrite Hmod; [|lia|rewrite Hsplit; apply Z.mod_mul; lia].
      rewrite Hsplit. apply Z.div_mul. lia. }
  assert (Hlt : m2 < 2 ^ 24).
  { assert (2 ^ Zdigits2 n * 2 ^ (24 - Zdigits2 n) = 2 ^ 24)
      by (rewrite <- Z.pow_add_r by lia; f_equal; lia).
    rewrite Hv. nia. }
  unfold rounded.
  destruct (Z.eqb_spec m2 0); [nia|].
  destruct (Z.ltb_spec m2 (2 ^ 24)); [|lia].
  destruct (Z.leb_spec E 104); [|unfold E in *; lia].
  rewrite Hv. reflexivity.
Qed.

(** The shape of [(float) n] for such an integer. *)
Lemma f32_pos (n : Z) :
  0 < n < 2 ^ 24 ->
  f32 n = S754_finite false (Z.to_pos (n * 2 ^ (24 - Zdigits2 n))) (Zdigits2 n - 24) /\
  bounded 24 128 (Z.to_pos (n * 2 ^ (24 - Zdigits2 n))) (Zdigits2 n - 24) = true.
Proof.
  intros Hn.
  pose proof (Zdigits2_pos n ltac:(lia)) as Hd1.
  pose proof (Zdigits2_lt_pow n 24 ltac:(lia) ltac:(lia)) as Hd24.
  assert (Heq : f32 n =
                S754_finite false (Z.to_pos (n * 2 ^ (24 - Zdigits2 n))) (Zdigits2 n - 24)).
  { unfold f32, F32.of_int, F32.prec, F32.emax, binary_normalize.
    destruct n as [|p|p]; try lia.
    apply binary_round_int; [assumption|lia|]. rewrite Z.pow_0_r. lia. }
  split; [exact Heq|].
  assert (Hp : 0 < 2 ^ (24 - Zdigits2 n)) by (apply Z.pow_pos_nonneg; lia).
  apply bounded_spec. rewrite Z2Pos.id by nia.
  rewrite Zdigits2_mul_pow by lia. rewrite fexp32_eq. lia.
Qed.

Lemma Z_to_pos_scaled (n k : Z) :
  0 < n -> 0 <= k -> Zpos (Z.to_pos (n * 2 ^ k)) = n * 2 ^ k.
Proof.
  intros Hn Hk. assert (0 < 2 ^ k) by (apply Z.pow_pos_nonneg; lia).
  apply Z2Pos.id. nia.
Qed.

(** Sums of small nonnegative integers are exact. *)
Lemma f32_add (a b : Z) :
  0 <= a -> 0 <= b -> a + b < 2 ^ 24 ->
  F32.add (f32 a) (f32 b) = f32 (a + b).
Proof.
  intros Ha Hb Hab.
  destruct (Z.eq_dec a 0) as [->|Ha0].
  { rewrite f32_0, Z.add_0_l. destruct (Z.eq_dec b 0) as [->|Hb0]; [reflexivity|].
    destruct (f32_pos b ltac:(lia)) as [-> _]. reflexivity. }
  destruct (Z.eq_dec b 0) as [->|Hb0].
  { rewrite f32_0, Z.add_0_r. destruct (f32_pos a ltac:(lia)) as [-> _]. reflexivity. }
  destruct (f32_pos a ltac:(lia)) as [Hfa _].
  destruct (f32_pos b ltac:(lia)) as [Hfb _].
  destruct (f32_pos (a + b) ltac:(lia)) as [Hfs _].
  rewrite Hfa, Hfb, Hfs. unfold F32.add, F32.prec, F32.emax.
  pose proof (Zdigits2_pos a ltac:(lia)). pose proof (Zdigits2_pos b ltac:(lia)).
  pose proof (Zdigits2_lt_pow a 24 ltac:(lia) ltac:(lia)).
  pose proof (Zdigits2_lt_pow b 24 ltac:(lia) ltac:(lia)).
  set (ea := Zdigits2 a - 24) in *. set (eb := Zdigits2 b - 24) in *.
  destruct (add_finite_pos (Z.to_pos (a * 2 ^ (24 - Zdigits2 a)))
              (Z.to_pos (b * 2 ^ (24 - Zdigits2 b))) ea eb) as [M [HM ->]].
  rewrite !Z_to_pos_scaled in HM by lia.
  set (ez := Z.min ea eb) in *.
  apply binary_round_int; [lia | unfold ez, ea, eb; lia |].
  rewrite HM. rewrite <- !Z.mul_assoc, <- !Z.pow_add_r by (unfold ez, ea, eb; lia).
  replace (24 - Zdigits2 a + (ea - ez)) with (- ez) by (unfold ea; lia).
  replace (24 - Zdigits2 b + (eb - ez)) with (- ez) by (unfold eb; lia).
  ring.
Qed.

Lemma Zdigits2_TAB_LEN (s : Z) : 2048 <= s < 4096 -> Zdigits2 s = 12.
Proof. intros H. apply Zdigits2_unique; [simpl; lia | lia]. Qed.

(** Taking [TAB_LEN] off an integer between [TAB_LEN] and [2 * TAB_LEN] is
    exact. *)
Lemma f32_sub_TAB_LEN (s : Z) :
  2048 <= s < 4096 -> F32.sub (f32 s) (f32 TAB_LEN) = f32 (s - 2048).
Proof.
  intros Hs. destruct (f32_pos s ltac:(lia)) as [Hfs _].
  rewrite (Zdigits2_TAB_LEN s Hs) in Hfs. rewrite Hfs, f32_TAB_LEN.
  unfold F32.sub, F32.prec, F32.emax. change (12 - 24) with (-12).
  rewrite sub_finite_pos. rewrite Z_to_pos_scaled by lia.
  change (24 - 12) with 12. change (2 ^ 12) with 4096.
  destruct (Z.eq_dec s 2048) as [->|Hne]; [reflexivity|].
  destruct (s * 4096 - Zpos 8388608) as [|M|M] eqn:HM; try lia.
  unfold binary_normalize.
  destruct (f32_pos (s - 2048) ltac:(lia)) as [-> _].
  apply binary_round_int; [lia|lia|]. change (2 ^ (- -12)) with 4096. lia.
Qed.

(** The comparison with [TAB_LEN] and the cast, on integers. *)
Lemma f32_geb_TAB_LEN (s : Z) :
  0 <= s < 2 ^ 24 -> F32.geb (f32 s) (f32 TAB_LEN) = (2048 <=? s).
Proof.
  intros Hs. destruct (Z.eq_dec s 0) as [->|Hs0]; [reflexivity|].
  destruct (f32_pos s ltac:(lia)) as [Hf Hb]. rewrite Hf. unfold F32.geb.
  rewrite (geb_TAB_LEN_finite _ _ Hb).
  pose proof (Zdigits2_bounds s ltac:(lia)) as [Hlo Hhi].
  destruct (Z.leb_spec 2048 s) as [H|H].
  - apply Z.leb_le. destruct (Z.leb_spec 12 (Zdigits2 s)); [lia|exfalso].
    assert (2 ^ Zdigits2 s <= 2 ^ 11).
    { apply Z.pow_le_mono_r; [lia|].
      pose proof (Zdigits2_nonneg s). lia. }
    change (2 ^ 11) with 2048 in *. lia.
  - apply Z.leb_gt. destruct (Z.leb_spec 12 (Zdigits2 s)); [exfalso|lia].
    assert (2 ^ 11 <= 2 ^ (Zdigits2 s - 1)) by (apply Z.pow_le_mono_r; lia).
    change (2 ^ 11) with 2048 in *. lia.
Qed.

Lemma f32_to_int (a : Z) : 0 <= a < 2 ^ 24 -> F32.to_int (f32 a) = Some a.
Proof.
  intros Ha. destruct (Z.eq_dec a 0) as [->|Ha0]; [reflexivity|].
  destruct (f32_pos a ltac:(lia)) as [-> _].
  pose proof (Zdigits2_pos a ltac:(lia)).
  pose proof (Zdigits2_lt_pow a 24 ltac:(lia) ltac:(lia)).
  unfold F32.to_int, F32.trunc, cond_Zopp.
  assert (Hz : Z.shiftl (Zpos (Z.to_pos (a * 2 ^ (24 - Zdigits2 a)))) (Zdigits2 a - 24) = a).
  { rewrite Z_to_pos_scaled by lia. rewrite Z.shiftl_div_pow2 by lia.
    replace (- (Zdigits2 a - 24)) with (24 - Zdigits2 a) by lia.
    apply Z.div_mul. apply Z.pow_nonzero; lia. }
  rewrite Hz. unfold F32.INT_MIN, F32.INT_MAX.
  destruct (Z.leb_spec (- 2 ^ 31) a); [|simpl in *; lia].
  destruct (Z.leb_spec a (2 ^ 31 - 1)); [reflexivity|simpl in *; lia].
Qed.

(** One [render] on integers: the accumulator moves by [m] modulo
    [TAB_LEN]. *)
Lemma render_stride (this : Oscillator) (a m : Z) :
  0 <= a < TAB_LEN -> 0 <= m < TAB_LEN ->
  idx this = f32 a -> idx_inc this = f32 m ->
  idx (fst (render this)) = f32 ((a + m) mod TAB_LEN) /\
  snd (render this) = Sample (wavetable this ((a + m) mod TAB_LEN)).
Proof.
  unfold TAB_LEN. intros Ha Hm Hi Hinc.
  assert (Hidx : idx (fst (render this)) = wrap (F32.add (idx this) (idx_inc this)))
    by reflexivity.
  assert (Hout : snd (render this) =
                 table_read (wavetable this) (F32.to_int (idx (fst (render this)))))
    by reflexivity.
  assert (Hw : wrap (F32.add (idx this) (idx_inc this)) = f32 ((a + m) mod 2048)).
  { rewrite Hi, Hinc, f32_add by (simpl; lia).
    unfold wrap. fold (f32 TAB_LEN).
    rewrite f32_geb_TAB_LEN by (simpl; lia).
    destruct (Z.leb_spec 2048 (a + m)) as [H|H].
    - rewrite f32_sub_TAB_LEN by lia. f_equal.
      apply Z.mod_unique with (q := 1); lia.
    - f_equal. symmetry. apply Z.mod_small. lia. }
  rewrite Hout, Hidx, Hw. split; [reflexivity|].
  pose proof (Z.mod_pos_bound (a + m) 2048 ltac:(lia)) as Hb.
  rewrite f32_to_int by (simpl; lia). unfold table_read, TAB_LEN.
  destruct (Z.leb_spec 0 ((a + m) mod 2048)); [|lia].
  destruct (Z.ltb_spec ((a + m) mod 2048) 2048); [reflexivity|lia].
Qed.

Lemma renders_stride (n : nat) :
  forall (this : Oscillator) (a m : Z),
    0 <= a < TAB_LEN -> 0 <= m < TAB_LEN ->
    idx this = f32 a -> idx_inc this = f32 m ->
    idx (fst (run (renders n) this)) = f32 ((a + Z.of_nat n * m) mod TAB_LEN) /\
    snd (run (renders n) this) = stride_reads this a m n.
Proof.
  induction n as [|n IH]; intros this a m Ha Hm Hi Hinc.
  - split; [|reflexivity]. cbn [renders repeat run fst].
    rewrite Z.mul_0_l, Z.add_0_r, Z.mod_small by assumption. exact Hi.
  - change (renders (S n)) with (CallRender :: renders n).
    rewrite run_cons.
    destruct (render_stride this a m Ha Hm Hi Hinc) as [H1 H2].
    unfold call. rewrite (surjective_pairing (render this)). cbn [fst snd].
    assert (Ha' : 0 <= (a + m) mod TAB_LEN < TAB_LEN)
      by (apply Z.mod_pos_bound; unfold TAB_LEN; lia).
    destruct (IH (fst (render this)) ((a + m) mod TAB_LEN) m Ha' Hm H1 Hinc)
      as [G1 G2].
    split.
    + rewrite G1. apply (f_equal f32).
      rewrite Z.add_mod_idemp_l by (unfold TAB_LEN; lia).
      apply (f_equal (fun z => z mod TAB_LEN)). lia.
    + rewrite H2, G2. unfold stride_reads. cbn [seq map app].
      apply f_equal2.
      * apply (f_equal (fun z => Sample (wavetable this (z mod TAB_LEN)))).
        cbn [Z.of_nat]. lia.
      * rewrite <- seq_shift, map_map. apply map_ext. intros j.
        apply (f_equal (fun z => Sample (wavetable this z))).
        rewrite Z.add_mod_idemp_l by (unfold TAB_LEN; lia).
        apply (f_equal (fun z => z mod TAB_LEN)). lia.
Qed.

(** ** The increment of a frequency below half the sample rate *)

Lemma f32_1024 : f32 1024 = S754_finite false 8388608 (-13).
Proof. reflexivity. Qed.

(** A quotient below half the table length rounds to at most half the table
    length. *)
Lemma div_half_table (ma ms : positive) (ea es : Z) :
  bounded 24 128 ma ea = true -> bounded 24 128 ms es = true ->
  (F32.to_Q (S754_finite false ma ea) < 1024 * F32.to_Q (S754_finite false ms es))%Q ->
  F32.leb (SFdiv 24 128 (S754_finite false ma ea) (S754_finite false ms es))
    (f32 1024) = true.
Proof.
  intros Hba Hbs Hlt.
  pose proof (bounded_digits ma ea Hba) as [Hea _].
  pose proof (bounded_digits ms es Hbs) as [Hes _].
  unfold F32.to_Q, cond_Zopp in Hlt.
  rewrite Qmult_assoc in Hlt. change 1024%Q with (inject_Z 1024) in Hlt.
  rewrite <- inject_Z_mult in Hlt.
  pose proof (Zdigits2_bounds (Zpos ma) ltac:(lia)) as [Halo Hahi].
  pose proof (Zdigits2_bounds (Zpos ms) ltac:(lia)) as [Hslo Hshi].
  pose proof (Zdigits2_pos (Zpos ma) ltac:(lia)) as Hda.
  pose proof (Zdigits2_pos (Zpos ms) ltac:(lia)) as Hds.
  set (da := Zdigits2 (Zpos ma)) in *. set (ds := Zdigits2 (Zpos ms)) in *.
  assert (Ht : da + ea - (ds + es) <= 10).
  { pose proof (dyadic_lt (Zpos ma) (1024 * Zpos ms) ea es 300
                  ltac:(lia) ltac:(lia) Hlt) as H.
    assert (H1 : 2 ^ (da - 1 + (ea + 300)) <= Zpos ma * 2 ^ (ea + 300)).
    { rewrite Z.pow_add_r by lia.
      apply Z.mul_le_mono_nonneg_r; [apply Z.pow_nonneg; lia | assumption]. }
    assert (H2 : 1024 * Zpos ms * 2 ^ (es + 300) < 2 ^ (10 + ds + (es + 300))).
    { rewrite (Z.pow_add_r 2 (10 + ds)), (Z.pow_add_r 2 10) by lia.
      change (2 ^ 10) with 1024.
      assert (0 < 2 ^ (es + 300)) by (apply Z.pow_pos_nonneg; lia). nia. }
    assert (H3 : 2 ^ (da - 1 + (ea + 300)) < 2 ^ (10 + ds + (es + 300))) by lia.
    apply Z.pow_lt_mono_r_iff in H3; lia. }
  unfold SFdiv.
  destruct (div_core_spec (Zpos ma) ea (Zpos ms) es ltac:(lia) ltac:(lia)) as [l ->].
  fold da ds. simpl xorb.
  set (e' := Z.min (fexp32 (da + ea - (ds + es))) (ea - es)).
  set (s := ea - es - e').
  assert (He' : e' <= -14)
    by (unfold e'; pose proof (fexp32_le _ _ Ht) as Hf; rewrite (fexp32_eq 10) in Hf; lia).
  assert (Hs : 0 <= s) by (unfold s, e'; lia).
  set (q := Zpos ma * 2 ^ s / Zpos ms).
  assert (H2s : 0 < 2 ^ s) by (apply Z.pow_pos_nonneg; lia).
  assert (Hq0 : 0 <= q) by (apply Z.div_pos; nia).
  assert (Hqhi : q < 2 ^ (10 - e')).
  { pose proof (dyadic_lt (Zpos ma) (1024 * Zpos ms) ea es (- es - e')
                  ltac:(unfold s in Hs; lia) ltac:(lia) Hlt) as H.
    replace (ea + (- es - e')) with s in H by (unfold s; lia).
    replace (es + (- es - e')) with (- e') in H by lia.
    apply Z.div_lt_upper_bound; [lia|].
    replace (10 - e') with (10 + - e') by lia. rewrite Z.pow_add_r by lia.
    change (2 ^ 10) with 1024. lia. }
  assert (Hdq : Zdigits2 q <= 10 - e') by (apply Zdigits2_lt_pow; lia).
  assert (Hdqlo : da + s - ds <= Zdigits2 q).
  { pose proof (Zdigits2_nonneg q).
    destruct (Z.leb_spec (da + s - ds) 0); [lia|].
    assert (2 ^ (da + s - ds - 1) <= q).
    { apply Z.div_le_lower_bound; [lia|].
      assert (Hx : Zpos ms * 2 ^ (da + s - ds - 1) <= 2 ^ ds * 2 ^ (da + s - ds - 1)).
      { apply Z.mul_le_mono_nonneg_r; [apply Z.pow_nonneg; lia | lia]. }
      rewrite <- Z.pow_add_r in Hx by lia.
      replace (ds + (da + s - ds - 1)) with (da - 1 + s) in Hx by lia.
      rewrite Z.pow_add_r in Hx by lia. nia. }
    assert (0 < 2 ^ (da + s - ds - 1)) by (apply Z.pow_pos_nonneg; lia).
    pose proof (Zdigits2_bounds q ltac:(lia)) as [_ Hhi].
    destruct (Z.leb_spec (da + s - ds) (Zdigits2 q)); [assumption|exfalso].
    assert (2 ^ Zdigits2 q <= 2 ^ (da + s - ds - 1)) by (apply Z.pow_le_mono_r; lia).
    lia. }
  assert (Hpre : e' <= fexp32 (Zdigits2 q + e')).
  { assert (Hle : da + ea - (ds + es) <= Zdigits2 q + e') by (unfold s in Hdqlo; lia).
    apply fexp32_le in Hle. unfold e' at 1. lia. }
  destruct (binary_round_aux_spec false q e' l Hq0 Hpre)
    as [m2 [Hb [Hm2 [_ [_ [-> Hv]]]]]].
  set (E := fexp32 (Zdigits2 q + e')) in *.
  assert (HE : E <= -14) by (unfold E; rewrite fexp32_eq; lia).
  assert (Hm2nn : 0 <= m2).
  { assert (0 <= q / 2 ^ (E - e')); [|lia].
    apply Z.div_pos; [lia|apply Z.pow_pos_nonneg; lia]. }
  rewrite f32_1024. unfold F32.leb.
  destruct (rounded_shape false m2 E ltac:(lia)) as [[_ Hr]|[[_ Hr]|[m [e [Hr Hc]]]]].
  - rewrite Hr. reflexivity.
  - exfalso. unfold rounded in Hr.
    destruct (m2 =? 0); [discriminate|].
    destruct (m2 <? 2 ^ 24).
    + destruct (Z.leb_spec E 104); [discriminate|lia].
    + destruct (Z.leb_spec (E + 1) 104); [discriminate|lia].
  - rewrite Hr. unfold SFleb, SFcompare.
    destruct Hc as [[-> _]|[-> [-> _]]].
    + destruct (Z.compare_spec E (-13)); first [reflexivity | lia].
    + destruct (Z.compare_spec (E + 1) (-13)) as [Heq|Hl|Hg];
        first [reflexivity | lia].
Qed.

(** [setF0] with a frequency below half the sample rate leaves an increment
    of at most half the table. *)
Lemma setF0_half_table (f : float32) (this : Oscillator) :
  sub_nyquist (fs this) f -> no_overflow f = true ->
  F32.leb (idx_inc (setF0 f this)) (f32 1024) = true.
Proof.
  intros [Hvs [Hvf [Hpos Hhalf]]] Hfin.
  assert (Hq : (0 < F32.to_Q (fs this) /\
                2048 * F32.to_Q f < 1024 * F32.to_Q (fs this))%Q).
  { revert Hpos Hhalf. generalize (F32.to_Q f) (F32.to_Q (fs this)).
    intros a b Ha Hab. unfold Qdiv in Hab.
    change (/ 2)%Q with (1 # 2)%Q in Hab. split; Lqa.lra. }
  destruct Hq as [Hspos Hlt].
  destruct (to_Q_pos_inv f Hpos) as [m [e ->]].
  destruct (to_Q_pos_inv (fs this) Hspos) as [ms [es Hs]].
  unfold setF0. cbn [idx_inc set_idx_inc]. rewrite Hs in *.
  unfold no_overflow, F32.mul, F32.div, F32.prec, F32.emax in *.
  fold (f32 TAB_LEN) in *.
  destruct (mul_TAB_LEN m e Hvf) as [Hinf|[ma [ea [Hmul [Hba Hval]]]]].
  - rewrite Hinf in Hfin. discriminate.
  - rewrite Hmul. apply div_half_table; [assumption|exact Hvs|].
    rewrite Hval. exact Hlt.
Qed.

(** ** The wrap is exact *)

(** Where [render] subtracts [TAB_LEN], the difference is representable:
    the subtraction rounds nothing away. *)
Lemma wrap_exact (x : float32) :
  ((exists s, x = S754_zero s) \/
   (exists m e, x = S754_finite false m e /\ bounded 24 128 m e = true /\ e <= -12)) ->
  (F32.to_Q (wrap x) ==
   if F32.geb x (f32 TAB_LEN) then F32.to_Q x - 2048 else F32.to_Q x)%Q.
Proof.
  intros [[s ->]|[m [e [-> [Hb He]]]]].
  - destruct s; reflexivity.
  - unfold wrap, F32.geb. fold (f32 TAB_LEN).
    rewrite (geb_TAB_LEN_finite m e Hb).
    destruct (Z.leb_spec (-12) e) as [Hge|Hlt]; [|reflexivity].
    assert (e = -12) by lia. subst e.
    pose proof (bounded_digits m (-12) Hb) as [_ [Hhi Hlo]].
    specialize (Hlo ltac:(lia)).
    unfold F32.sub, F32.prec, F32.emax. rewrite f32_TAB_LEN.
    rewrite sub_finite_pos.
    assert (Hval : (F32.to_Q (S754_finite false m (-12)) - 2048 ==
                    inject_Z (Zpos m - Zpos 8388608) * Qpower 2 (-12))%Q).
    { unfold F32.to_Q, cond_Zopp. unfold Zminus. rewrite inject_Z_plus, inject_Z_opp.
      change (Qpower 2 (-12)) with (1 # 4096)%Q.
      change (inject_Z (Zpos 8388608)) with (8388608 # 1)%Q.
      generalize (inject_Z (Zpos m)). intros a. Lqa.lra. }
    rewrite Hval.
    destruct (Z.eq_dec (Zpos m) (Zpos 8388608)) as [Heq|Hne].
    + rewrite Heq, Z.sub_diag. reflexivity.
    + assert (Hpos : 0 < Zpos m - Zpos 8388608) by lia.
      destruct (Zpos m - Zpos 8388608) as [|M|M] eqn:HM; try lia.
      unfold binary_normalize.
      destruct (binary_round_spec false M (-12)) as [m2 [Hm2 [Hexact [_ [_ [Hr Hv]]]]]].
      rewrite Hr.
      set (E := fexp32 (Zdigits2 (Zpos M) + -12)) in *.
      assert (HMlt : Zpos M < 2 ^ 23) by lia.
      pose proof (Zdigits2_lt_pow (Zpos M) 23 ltac:(lia) ltac:(lia)) as Hd.
      pose proof (Zdigits2_pos (Zpos M) ltac:(lia)) as Hd1.
      assert (HE : E = Zdigits2 (Zpos M) - 36) by (unfold E; rewrite fexp32_eq; lia).
      specialize (Hexact ltac:(lia)).
      assert (Hlt24 : 0 < m2 < 2 ^ 24).
      { pose proof (Zdigits2_bounds (Zpos M) ltac:(lia)) as [_ Hhi'].
        assert (0 < 2 ^ (-12 - E)) by (apply Z.pow_pos_nonneg; lia).
        assert (2 ^ Zdigits2 (Zpos M) * 2 ^ (-12 - E) = 2 ^ 24).
        { rewrite <- Z.pow_add_r by lia. f_equal. lia. }
        nia. }
      assert (Hfin : F32.is_finite (rounded false m2 E) = true).
      { unfold rounded. destruct (Z.eqb_spec m2 0); [reflexivity|].
        destruct (Z.ltb_spec m2 (2 ^ 24)); [|lia].
        destruct (Z.leb_spec E 104); [reflexivity|lia]. }
      rewrite (to_Q_rounded false m2 E ltac:(lia) Hfin). unfold cond_Zopp.
      apply (dyadic_eq _ _ _ _ 200); try lia.
      rewrite Hexact. rewrite <- Z.mul_assoc, <- Z.pow_add_r by lia.
      do 2 f_equal. lia.
Qed.

(** ** What [table_init] writes *)

(** The loop leaves alone every position outside [[0, TAB_LEN)]. *)
Lemma table_init_outside (sin32 : float32 -> float32) (this : Oscillator) (j : Z) :
  j < 0 \/ TAB_LEN <= j ->
  wavetable (table_init sin32 this) j = wavetable this j.
Proof.
  intros Hj. unfold table_init. cbn [wavetable set_wavetable].
  rewrite table_init_loop_spec.
  destruct (Z.leb_spec 0 j); [|reflexivity].
  destruct (Z.ltb_spec j (0 + Z.of_nat (Z.to_nat TAB_LEN))); [|reflexivity].
  unfold TAB_LEN in *. lia.
Qed.

Lemma table_init_inside (sin32 : float32 -> float32) (this : Oscillator) (j : Z) :
  0 <= j < TAB_LEN ->
  wavetable (table_init sin32 this) j = sin32 (table_arg j).
Proof.
  intros Hj. unfold table_init. cbn [wavetable set_wavetable].
  rewrite table_init_loop_spec.
  destruct (Z.leb_spec 0 j); [|lia].
  destruct (Z.ltb_spec j (0 + Z.of_nat (Z.to_nat TAB_LEN))); [reflexivity|].
  unfold TAB_LEN in *. lia.
Qed.

(** * Further properties of the oscillator *)

(** X1.  A frequency of zero, at any sample rate other than zero or NaN,
    gives a zero increment: the oscillator constructed with it stays at
    index 0 and every [render] returns entry 0 of the table. *)
Theorem zero_frequency_holds_entry_0 (sin32 : float32 -> float32)
  (raw : Oscillator) (sample_rate : float32) (s : bool) (n : nat) :
  degenerate_rate sample_rate = false ->
  let this := Oscillator_new sin32 raw sample_rate (S754_zero s) in
  is_zero (idx_inc this) = true /\
  is_zero (idx (fst (run (renders n) this))) = true /\
  snd (run (renders n) this) = repeat (Sample (sin32 (table_arg 0))) n.
Proof.
  intros Hr this.
  assert (Hinc : is_zero (idx_inc this) = true).
  { exact (setF0_zero s
             (table_init sin32 (set_idx (F32.of_int 0) (set_fs sample_rate raw))) Hr). }
  assert (Hidx : is_zero (idx this) = true) by reflexivity.
  destruct (renders_frozen n this Hidx Hinc) as [H1 H2].
  split; [exact Hinc|]. split; [exact H1|].
  rewrite H2. unfold this. rewrite wavetable_new by (unfold TAB_LEN; lia).
  reflexivity.
Qed.

(** X1 at 48 kHz. *)
Lemma zero_frequency_holds_entry_0_witness :
  let this := Oscillator_new sin_clip raw0 (f32 48000) (S754_zero false) in
  is_zero (idx_inc this) = true /\
  is_zero (idx (fst (run (renders 3) this))) = true /\
  snd (run (renders 3) this) = repeat (Sample (sin_clip (table_arg 0))) 3.
Proof.
  apply (zero_frequency_holds_entry_0 sin_clip raw0 (f32 48000) false 3).
  reflexivity.
Defined.

(** X2.  [setF0] maps a frequency in [(0, fs / 2)] whose product with
    [TAB_LEN] does not overflow to an increment in [[0, TAB_LEN / 2]]: half
    the table at most, not the whole of it. *)
Theorem sub_nyquist_increment_within_half_table (f0_Hz : float32)
  (this : Oscillator) :
  sub_nyquist (fs this) f0_Hz -> no_overflow f0_Hz = true ->
  F32.valid (idx_inc (setF0 f0_Hz this)) = true /\
  F32.leb (f32 0) (idx_inc (setF0 f0_Hz this)) = true /\
  F32.leb (idx_inc (setF0 f0_Hz this)) (f32 (TAB_LEN / 2)) = true.
Proof.
  intros Hsn Hno.
  pose proof (setF0_in_range f0_Hz this Hsn Hno) as Hr.
  unfold in_range in Hr. rewrite !andb_true_iff in Hr.
  destruct Hr as [[Hv H0] _].
  split; [exact Hv|]. split; [exact H0|].
  exact (setF0_half_table f0_Hz this Hsn Hno).
Qed.

(** X2 at 48 kHz and 440 Hz. *)
Lemma sub_nyquist_increment_within_half_table_witness :
  let this := set_fs (f32 48000) raw0 in
  F32.valid (idx_inc (setF0 (f32 440) this)) = true /\
  F32.leb (f32 0) (idx_inc (setF0 (f32 440) this)) = true /\
  F32.leb (idx_inc (setF0 (f32 440) this)) (f32 (TAB_LEN / 2)) = true.
Proof.
  apply (sub_nyquist_increment_within_half_table (f32 440) (set_fs (f32 48000) raw0)).
  - repeat split; reflexivity.
  - reflexivity.
Defined.

(** X3.  With an increment of at least twice the table length and a
    nonnegative accumulator, the single subtraction of [render] never
    suffices: the accumulator is at least [TAB_LEN] after every call and no
    call reads inside the table. *)
Theorem increment_beyond_two_tables_misses_table (n : nat) (this : Oscillator) :
  at_least (f32 0) (idx this) = true ->
  at_least (f32 (2 * TAB_LEN)) (idx_inc this) = true ->
  at_least (f32 TAB_LEN) (idx (fst (render this))) = true /\
  Forall read_past_end (snd (run (renders n) this)).
Proof.
  intros Hi Hinc. change (f32 (2 * TAB_LEN)) with (f32 4096) in Hinc.
  split.
  - exact (proj1 (render_at_least this Hi Hinc)).
  - exact (renders_at_least n this Hi Hinc).
Qed.

(** X3 with an increment of 5000. *)
Lemma increment_beyond_two_tables_misses_table_witness :
  let this := mkOscillator (fun _ => f32 0) (f32 0) (f32 5000) S754_nan (f32 48000) in
  at_least (f32 TAB_LEN) (idx (fst (render this))) = true /\
  Forall read_past_end (snd (run (renders 3) this)).
Proof.
  intros this.
  apply (increment_beyond_two_tables_misses_table 3 this); reflexivity.
Defined.

(** X4.  [render] wraps at the upper end only.  With an increment of at
    most [-1] and an accumulator of at most 0, the accumulator is the plain
    sum after a call, stays at most [-1], and every call reads before the
    start of the table. *)
Theorem negative_increment_is_never_wrapped (n : nat) (this : Oscillator) :
  at_most (f32 0) (idx this) = true ->
  at_most (f32 (-1)) (idx_inc this) = true ->
  idx (fst (render this)) = F32.add (idx this) (idx_inc this) /\
  at_most (f32 (-1)) (idx (fst (render this))) = true /\
  Forall read_before_start (snd (run (renders n) this)).
Proof.
  intros Hi Hinc.
  destruct (render_at_most this Hi Hinc) as [H1 [H2 _]].
  split; [exact H1|]. split; [exact H2|].
  exact (renders_at_most n this Hi Hinc).
Qed.

(** X4 with an increment of [-3]. *)
Lemma negative_increment_is_never_wrapped_witness :
  let this := mkOscillator (fun _ => f32 0) (f32 0) (f32 (-3)) S754_nan (f32 48000) in
  idx (fst (render this)) = F32.add (idx this) (idx_inc this) /\
  at_most (f32 (-1)) (idx (fst (render this))) = true /\
  Forall read_before_start (snd (run (renders 3) this)).
Proof.
  intros this.
  apply (negative_increment_is_never_wrapped 3 this); reflexivity.
Defined.

(** X5.  A NaN is never cleared.  Once the accumulator or the increment is
    a NaN, the accumulator is a NaN after the next [render] and stays one
    through every later call, [setF0] with any frequency included; no
    [render] from then on reads the table. *)
Theorem nan_accumulator_is_absorbing (ops : list op) (this : Oscillator) :
  idx this = S754_nan \/ idx_inc this = S754_nan ->
  idx (fst (run (CallRender :: ops) this)) = S754_nan /\
  all_undefined (snd (run (CallRender :: ops) this)).
Proof.
  intros H. rewrite run_cons. cbn [fst snd].
  assert (Hidx : idx (fst (render this)) = S754_nan).
  { change (idx (fst (render this)))
      with (wrap (F32.add (idx this) (idx_inc this))).
    destruct H as [-> | ->]; [rewrite add_nan_l | rewrite add_nan_r]; reflexivity. }
  assert (Hout : snd (render this) = CastUndefined).
  { change (snd (render this))
      with (table_read (wavetable this) (F32.to_int (idx (fst (render this))))).
    rewrite Hidx. reflexivity. }
  assert (Hcall : call CallRender this = (fst (render this), [snd (render this)])).
  { unfold call. rewrite (surjective_pairing (render this)). reflexivity. }
  rewrite Hcall. cbn [fst snd].
  destruct (run_nan ops (fst (render this)) Hidx) as [H1 H2].
  split; [exact H1|].
  unfold all_undefined in *. rewrite Hout. constructor; [reflexivity|exact H2].
Qed.

(** X5 from a NaN increment, retuned to 440 Hz after the first call. *)
Lemma nan_accumulator_is_absorbing_witness :
  let this := mkOscillator (fun _ => f32 0) (f32 0) S754_nan S754_nan (f32 48000) in
  let ops := [CallSetF0 (f32 440); CallRender; CallRender] in
  idx (fst (run (CallRender :: ops) this)) = S754_nan /\
  all_undefined (snd (run (CallRender :: ops) this)).
Proof.
  intros this ops.
  apply (nan_accumulator_is_absorbing ops this). right. reflexivity.
Defined.

(** X6.  The sample rate is not checked.  An oscillator constructed with a
    sample rate of zero or NaN has an infinite or NaN increment whatever the
    frequency, also after any [setF0], and no [render] of any sequence of
    calls reads the table. *)
Theorem degenerate_sample_rate_never_reads (sin32 : float32 -> float32)
  (raw : Oscillator) (sample_rate f0_arg : float32) (ops : list op) :
  degenerate_rate sample_rate = true ->
  let this := Oscillator_new sin32 raw sample_rate f0_arg in
  not_finite (idx_inc this) = true /\
  (forall f0_Hz, not_finite (idx_inc (setF0 f0_Hz this)) = true) /\
  all_undefined (snd (run ops this)).
Proof.
  intros Hr this.
  assert (Hinc : forall f, not_finite (F32.div (F32.mul (F32.of_int TAB_LEN) f) sample_rate)
                           = true)
    by (intros f; apply div_degenerate; exact Hr).
  split; [exact (Hinc f0_arg)|]. split; [intros f0_Hz; exact (Hinc f0_Hz)|].
  apply run_degenerate; [exact Hr|]. right. exact (Hinc f0_arg).
Qed.

(** X6 with a sample rate of zero. *)
Lemma degenerate_sample_rate_never_reads_witness :
  let this := Oscillator_new sin_clip raw0 (f32 0) (f32 440) in
  not_finite (idx_inc this) = true /\
  (forall f0_Hz, not_finite (idx_inc (setF0 f0_Hz this)) = true) /\
  all_undefined (snd (run [CallRender; CallSetF0 (f32 880); CallRender] this)).
Proof.
  apply (degenerate_sample_rate_never_reads sin_clip raw0 (f32 0) (f32 440)
           [CallRender; CallSetF0 (f32 880); CallRender]).
  reflexivity.
Defined.

(** X7.  The wrap costs no accuracy.  From an accumulator and an increment in
    [[0, TAB_LEN)], the new accumulator is exactly the binary32 sum, less
    exactly [TAB_LEN] when the sum reached it: the subtraction rounds nothing
    away. *)
Theorem wrap_subtraction_is_exact (this : Oscillator) :
  in_range (idx this) = true -> in_range (idx_inc this) = true ->
  let acc := F32.add (idx this) (idx_inc this) in
  (F32.to_Q (idx (fst (render this))) ==
   if F32.geb acc (f32 TAB_LEN) then F32.to_Q acc - inject_Z TAB_LEN
   else F32.to_Q acc)%Q.
Proof.
  intros Hi Hinc acc.
  change (idx (fst (render this))) with (wrap acc).
  change (inject_Z TAB_LEN) with 2048%Q.
  apply wrap_exact. exact (add_in_range (idx this) (idx_inc this) Hi Hinc).
Qed.

(** X7 at [idx = 2000.5], [idx_inc = 100.25]. *)
Lemma wrap_subtraction_is_exact_witness :
  let this := mkOscillator (fun _ => f32 0) (S754_finite false 16388096 (-13))
                (S754_finite false 13139968 (-17)) S754_nan (f32 48000) in
  let acc := F32.add (idx this) (idx_inc this) in
  (F32.to_Q (idx (fst (render this))) ==
   if F32.geb acc (f32 TAB_LEN) then F32.to_Q acc - inject_Z TAB_LEN
   else F32.to_Q acc)%Q.
Proof.
  intros this.
  apply (wrap_subtraction_is_exact this); reflexivity.
Defined.

(** X8.  [table_init] writes every entry from 0 to [TAB_LEN - 1] and nothing
    else: no position before or past the table and no other member is
    modified, and the entries written do not depend on what the storage
    held. *)
Theorem table_init_writes_the_table_only (sin32 : float32 -> float32)
  (this : Oscillator) :
  (forall j, 0 <= j < TAB_LEN ->
     wavetable (table_init sin32 this) j = sin32 (table_arg j)) /\
  (forall j, j < 0 \/ TAB_LEN <= j ->
     wavetable (table_init sin32 this) j = wavetable this j) /\
  idx (table_init sin32 this) = idx this /\
  idx_inc (table_init sin32 this) = idx_inc this /\
  f0 (table_init sin32 this) = f0 this /\
  fs (table_init sin32 this) = fs this /\
  (forall that j, 0 <= j < TAB_LEN ->
     wavetable (table_init sin32 that) j = wavetable (table_init sin32 this) j).
Proof.
  split; [intros j Hj; apply table_init_inside; exact Hj|].
  split; [intros j Hj; apply table_init_outside; exact Hj|].
  do 4 (split; [reflexivity|]).
  intros that j Hj. rewrite !table_init_inside by exact Hj. reflexivity.
Qed.

(** X9.  With an accumulator and an increment that are integers [a] and [m]
    of [[0, TAB_LEN)], the oscillator steps through the table exactly: after
    [n] calls the accumulator is [(a + n * m) mod TAB_LEN], and call [j]
    returned entry [(a + (j + 1) * m) mod TAB_LEN]. *)
Theorem integer_increment_strides_the_table (n : nat) (this : Oscillator)
  (a m : Z) :
  0 <= a < TAB_LEN -> 0 <= m < TAB_LEN ->
  idx this = f32 a -> idx_inc this = f32 m ->
  idx (fst (run (renders n) this)) = f32 ((a + Z.of_nat n * m) mod TAB_LEN) /\
  snd (run (renders n) this) = stride_reads this a m n.
Proof.
  intros Ha Hm Hi Hinc. exact (renders_stride n this a m Ha Hm Hi Hinc).
Qed.

(** X9 from index 2000 in steps of 100. *)
Lemma integer_increment_strides_the_table_witness :
  let this := mkOscillator (fun i => f32 i) (f32 2000) (f32 100) S754_nan (f32 48000) in
  idx (fst (run (renders 3) this)) = f32 ((2000 + Z.of_nat 3 * 100) mod TAB_LEN) /\
  snd (run (renders 3) this) = stride_reads this 2000 100 3.
Proof.
  intros this.
  apply (integer_increment_strides_the_table 3 this 2000 100);
    first [reflexivity | unfold TAB_LEN; lia].
Defined.

(** X10.  With such integers the output is periodic: whenever [p * m] is a
    multiple of [TAB_LEN], [p] calls bring the accumulator back to where it
    was and the next [p] calls return the same samples again. *)
Theorem integer_increment_is_periodic (p : nat) (this : Oscillator) (a m : Z) :
  0 <= a < TAB_LEN -> 0 <= m < TAB_LEN ->
  idx this = f32 a -> idx_inc this = f32 m ->
  (Z.of_nat p * m) mod TAB_LEN = 0 ->
  let later := fst (run (renders p) this) in
  idx later = idx this /\
  snd (run (renders p) later) = snd (run (renders p) this).
Proof.
  intros Ha Hm Hi Hinc Hp later.
  destruct (renders_stride p this a m Ha Hm Hi Hinc) as [H1 H2].
  assert (Hback : (a + Z.of_nat p * m) mod TAB_LEN = a).
  { rewrite Z.add_mod, Hp, Z.add_0_r, Z.mod_mod by (unfold TAB_LEN; lia).
    apply Z.mod_small. exact Ha. }
  rewrite Hback in H1.
  assert (Hidx : idx later = f32 a) by exact H1.
  assert (Hinc' : idx_inc later = f32 m).
  { unfold later. rewrite render_frame_idx_inc. exact Hinc. }
  split; [rewrite Hidx, Hi; reflexivity|].
  destruct (renders_stride p later a m Ha Hm Hidx Hinc') as [_ H3].
  rewrite H3, H2. unfold stride_reads, later.
  destruct (run_frame (renders p) this) as [Hw _]. rewrite Hw. reflexivity.
Qed.

(** X10 with steps of 512: a period of four samples. *)
Lemma integer_increment_is_periodic_witness :
  let this := mkOscillator (fun i => f32 i) (f32 3) (f32 512) S754_nan (f32 48000) in
  let later := fst (run (renders 4) this) in
  idx later = idx this /\
  snd (run (renders 4) later) = snd (run (renders 4) this).
Proof.
  intros this.
  apply (integer_increment_is_periodic 4 this 3 512);
    first [reflexivity | unfold TAB_LEN; lia].
Defined.

(** X11.  [render] advances before it reads.  The first call on an
    oscillator constructed with a frequency in [(0, fs / 2)] (its product with
    [TAB_LEN] not overflowing) leaves the accumulator at the value of the
    increment and returns the entry at the integer part of the increment:
    entry 0 exactly when the increment is below 1, a later entry
    otherwise. *)
Theorem first_render_reads_at_the_increment (sin32 : float32 -> float32)
  (raw : Oscillator) (sample_rate f0_arg : float32) :
  sub_nyquist sample_rate f0_arg -> no_overflow f0_arg = true ->
  let this := Oscillator_new sin32 raw sample_rate f0_arg in
  (F32.to_Q (idx (fst (render this))) == F32.to_Q (idx_inc this))%Q /\
  exists i, 0 <= i < TAB_LEN /\
            integer_part (idx_inc this) i /\
            F32.to_int (idx_inc this) = Some i /\
            snd (render this) = Sample (sin32 (table_arg i)) /\
            (i = 0 <-> (F32.to_Q (idx_inc this) < 1)%Q).
Proof.
  intros Hsn Hno this.
  assert (Hinc : in_range (idx_inc this) = true).
  { exact (setF0_in_range f0_arg
             (table_init sin32 (set_idx (F32.of_int 0) (set_fs sample_rate raw)))
             Hsn Hno). }
  assert (Hidx : idx (fst (render this)) = wrap (F32.add (f32 0) (idx_inc this)))
    by reflexivity.
  assert (Hout : snd (render this) =
                 table_read (wavetable this) (F32.to_int (idx (fst (render this)))))
    by reflexivity.
  destruct (to_int_in_range _ Hinc) as [i [Hto Hib]].
  assert (Hsame : (F32.to_Q (idx (fst (render this))) == F32.to_Q (idx_inc this))%Q /\
                  F32.to_int (idx (fst (render this))) = F32.to_int (idx_inc this)).
  { rewrite Hidx, f32_0.
    destruct (in_range_inv _ Hinc) as [[s ->]|[m [e [-> [Hb He]]]]].
    - destruct s; split; reflexivity.
    - assert (Hadd : F32.add (S754_zero false) (S754_finite false m e) =
                     S754_finite false m e) by reflexivity.
      rewrite Hadd. unfold wrap, F32.geb. fold (f32 TAB_LEN).
      rewrite (geb_TAB_LEN_finite m e Hb).
      destruct (Z.leb_spec (-12) e); [lia|]. split; reflexivity. }
  destruct Hsame as [Hq Hi]. split; [exact Hq|].
  pose proof (trunc_integer_part _ _ (to_int_trunc _ _ Hto)) as Hip.
  exists i. split; [exact Hib|]. split; [exact Hip|]. split; [exact Hto|]. split.
  - rewrite Hout, Hi, Hto. unfold table_read.
    destruct (Z.leb_spec 0 i); [|lia]. destruct (Z.ltb_spec i TAB_LEN); [|lia].
    cbn [andb]. f_equal. unfold this. apply wavetable_new. exact Hib.
  - destruct Hip as [Hp _]. destruct (Hp (in_range_nonneg _ Hinc)) as [Hlo Hhi].
    split.
    + intros ->. exact Hhi.
    + intros Hlt.
      assert (H1 : (inject_Z i < inject_Z 1)%Q)
        by (eapply Qle_lt_trans; [exact Hlo|exact Hlt]).
      rewrite <- Zlt_Qlt in H1. lia.
Qed.

(** X11 at 48 kHz and 440 Hz. *)
Lemma first_render_reads_at_the_increment_witness :
  let this := Oscillator_new sin_clip raw0 (f32 48000) (f32 440) in
  (F32.to_Q (idx (fst (render this))) == F32.to_Q (idx_inc this))%Q /\
  exists i, 0 <= i < TAB_LEN /\
            integer_part (idx_inc this) i /\
            F32.to_int (idx_inc this) = Some i /\
            snd (render this) = Sample (sin_clip (table_arg i)) /\
            (i = 0 <-> (F32.to_Q (idx_inc this) < 1)%Q).
Proof.
  apply (first_render_reads_at_the_increment sin_clip raw0 (f32 48000) (f32 440)).
  - repeat split; reflexivity.
  - reflexivity.
Defined.

(** X12.  The sample rate is fixed at construction: whatever calls were
    made since, retuning to a frequency gives the increment an oscillator
    constructed with that frequency would have. *)
Theorem retuning_matches_construction (sin32 : float32 -> float32)
  (raw : Oscillator) (sample_rate f0_arg f0_Hz : float32) (ops : list op) :
  let this := fst (run ops (Oscillator_new sin32 raw sample_rate f0_arg)) in
  fs this = sample_rate /\
  idx_inc (setF0 f0_Hz this) =
  idx_inc (Oscillator_new sin32 raw sample_rate f0_Hz).
Proof.
  intros this.
  destruct (run_frame ops (Oscillator_new sin32 raw sample_rate f0_arg))
    as [_ [Hfs _]].
  assert (H : fs this = sample_rate) by (unfold this; rewrite Hfs; reflexivity).
  split; [exact H|].
  unfold setF0. cbn [idx_inc set_idx_inc]. rewrite H. reflexivity.
Qed.

(** X13.  For an oscillator constructed and retuned only with
    frequencies in [(0, fs / 2)] whose product with [TAB_LEN] does not
    overflow, every [render] of every sequence of calls returns an entry of
    the table, and that entry lies in [[-1, 1]] as soon as the library's sine
    does at the table's arguments. *)
Theorem render_samples_in_unit_range (sin32 : float32 -> float32)
  (raw : Oscillator) (sample_rate f0_arg : float32) (ops : list op) :
  (forall i, 0 <= i < TAB_LEN ->
     F32.leb (f32 (-1)) (sin32 (table_arg i)) = true /\
     F32.leb (sin32 (table_arg i)) (f32 1) = true) ->
  sub_nyquist sample_rate f0_arg -> no_overflow f0_arg = true ->
  frequencies (fun f => sub_nyquist sample_rate f /\ no_overflow f = true) ops ->
  Forall unit_sample (snd (run ops (Oscillator_new sin32 raw sample_rate f0_arg))).
Proof.
  intros Hsin Hsn Hno Hops.
  set (this := Oscillator_new sin32 raw sample_rate f0_arg).
  assert (Hi : in_range (idx this) = true) by reflexivity.
  assert (Hinc : in_range (idx_inc this) = true).
  { exact (setF0_in_range f0_arg
             (table_init sin32 (set_idx (F32.of_int 0) (set_fs sample_rate raw)))
             Hsn Hno). }
  destruct (run_in_range ops this Hi Hinc Hops) as [_ [_ Hout]].
  eapply Forall_impl; [|exact Hout].
  intros a [i [Hib ->]]. exists (wavetable this i). split; [reflexivity|].
  unfold this. rewrite wavetable_new by assumption. apply Hsin. assumption.
Qed.

(** X13 at 48 kHz: 440 Hz, then 880 Hz. *)
Lemma render_samples_in_unit_range_witness :
  Forall unit_sample
    (snd (run [CallRender; CallSetF0 (f32 880); CallRender; CallRender]
            (Oscillator_new sin_clip raw0 (f32 48000) (f32 440)))).
Proof.
  apply (render_samples_in_unit_range sin_clip raw0 (f32 48000) (f32 440)).
  - intros i _. apply sin_clip_unit.
  - split; [reflexivity|]. split; [reflexivity|]. split; reflexivity.
  - reflexivity.
  - repeat constructor.
Defined.
